(** * A singly linked list of [int]s (DataStructuresCpp/LinkedList.cpp)

    The C++ class [LinkedList] keeps a counter [length] and a pointer
    [head] to a chain of heap-allocated [Node]s.  The methods are embedded
    as computations in a small state-and-error monad over an explicit
    store: the heap of nodes, the two fields of the object, and the text
    written to [std::cout].  Dereferencing a null or dangling pointer is
    undefined behaviour in C++ and is the [Undefined] outcome here; loops
    whose number of iterations depends on the heap take a fuel argument. *)

From Stdlib Require Import Ascii.
From stdpp Require Import gmap strings pretty list.

Local Open Scope Z_scope.

(** ** The C++ [int]: 32 bits, two's complement *)

Module Int32.

Definition min_signed : Z := -2147483648.
Definition max_signed : Z := 2147483647.

(** The value an [int] holds after an arithmetic result [z] is stored
    into it (wrap-around modulo 2^32 into the signed range). *)
Definition wrap (z : Z) : Z := (z + 2147483648) `mod` 4294967296 - 2147483648.

Definition in_range (z : Z) : Prop := min_signed ≤ z ≤ max_signed.

End Int32.

(** ** Store *)

Definition loc := positive.

(** A pointer to a node: [nullptr] or the address of a cell. *)
Definition ptr := option loc.
Definition nullptr : ptr := None.

(** Modelled from the spec: the declaration of [Node] is in LinkedList.h,
    which is not among the sources.  The spec's data model has it hold one
    integer value and a link to the next node (or none); a node removed by
    a deletion is destroyed alone, so [delete] frees exactly one cell. *)
Record Node := mkNode { data : Z; next : ptr }.

(** Modelled from the spec: the declaration of the class is in
    LinkedList.h as well.  Its fields are the two the methods use: the
    counter [length], which [GetLength] returns as an [int], and the
    pointer [head] to the first node. *)
Record LinkedList := mkLinkedList { length : Z; head : ptr }.

Record state := mkState {
  heap : gmap loc Node;   (* the nodes allocated with [new] *)
  this : LinkedList;      (* the object the methods are called on *)
  cout : string           (* everything written to [std::cout] so far *)
}.

Definition with_heap (h : gmap loc Node) (s : state) : state :=
  {| heap := h; this := this s; cout := cout s |}.
Definition with_this (t : LinkedList) (s : state) : state :=
  {| heap := heap s; this := t; cout := cout s |}.
Definition with_cout (o : string) (s : state) : state :=
  {| heap := heap s; this := this s; cout := o |}.

(** ** The monad of method bodies *)

Inductive outcome (A : Type) : Type :=
| Done (a : A)        (* the call returned *)
| Undefined           (* null or dangling pointer dereferenced *)
| OutOfFuel.          (* the loop budget of the model ran out *)
Arguments Done {A} a.
Arguments Undefined {A}.
Arguments OutOfFuel {A}.

Definition M (A : Type) : Type := state → outcome (A * state).

#[global] Instance M_ret : MRet M := λ A a s, Done (a, s).
#[global] Instance M_bind : MBind M := λ A B k m s,
  match m s with
  | Done (a, s') => k a s'
  | Undefined => Undefined
  | OutOfFuel => OutOfFuel
  end.

Definition out_of_fuel {A} : M A := λ _, OutOfFuel.

(** Field accesses on [this]. *)
Definition get_head : M ptr := λ s, Done (head (this s), s).
Definition set_head (p : ptr) : M unit :=
  λ s, Done (tt, with_this {| length := length (this s); head := p |} s).
Definition get_length : M Z := λ s, Done (length (this s), s).
Definition set_length (n : Z) : M unit :=
  λ s, Done (tt, with_this {| length := n; head := head (this s) |} s).

(** [this->length++] and [this->length--] on an [int]. *)
Definition incr_length : M unit := n ← get_length; set_length (Int32.wrap (n + 1)).
Definition decr_length : M unit := n ← get_length; set_length (Int32.wrap (n - 1)).

(** Accesses through a node pointer: [p->data], [p->next]. *)
Definition deref (p : ptr) : M Node := λ s,
  match p with
  | None => Undefined
  | Some l => match heap s !! l with
              | Some nd => Done (nd, s)
              | None => Undefined
              end
  end.

Definition load_data (p : ptr) : M Z := nd ← deref p; mret (data nd).
Definition load_next (p : ptr) : M ptr := nd ← deref p; mret (next nd).

Definition store (p : ptr) (f : Node → Node) : M unit := λ s,
  match p with
  | None => Undefined
  | Some l => match heap s !! l with
              | Some nd => Done (tt, with_heap (<[l := f nd]> (heap s)) s)
              | None => Undefined
              end
  end.

Definition store_data (p : ptr) (z : Z) : M unit :=
  store p (λ nd, {| data := z; next := next nd |}).
Definition store_next (p : ptr) (q : ptr) : M unit :=
  store p (λ nd, {| data := data nd; next := q |}).

(** [new Node ()]: a cell at an address not in use, value-initialised. *)
Definition new_Node : M ptr := λ s,
  let l := fresh (dom (heap s)) in
  Done (Some l, with_heap (<[l := {| data := 0; next := nullptr |}]> (heap s)) s).

(** [delete p]: deleting [nullptr] does nothing, deleting a cell that is
    not allocated is undefined. *)
Definition delete_Node (p : ptr) : M unit := λ s,
  match p with
  | None => Done (tt, s)
  | Some l => match heap s !! l with
              | Some _ => Done (tt, with_heap (delete l (heap s)) s)
              | None => Undefined
              end
  end.

(** [std::cout << z] for an [int] and [std::cout << t] for text. *)
Definition put_int (z : Z) : M unit := λ s, Done (tt, with_cout (cout s +:+ pretty z) s).
Definition put_string (t : string) : M unit := λ s, Done (tt, with_cout (cout s +:+ t) s).
Definition put_char (c : ascii) : M unit := put_string (String c EmptyString).

(** ** The methods *)

(** [LinkedList::LinkedList ()]: the state a constructed list starts from,
    given what the rest of the program has allocated and printed. *)
Definition LinkedList_new (h : gmap loc Node) (o : string) : state :=
  {| heap := h; this := {| length := 0; head := nullptr |}; cout := o |}.

Definition empty_state : state := LinkedList_new ∅ "".

(** [void LinkedList::InsertFront (int data)] *)
Definition InsertFront (data : Z) : M unit :=
  node ← new_Node;
  store_data node data;;
  h ← get_head;
  store_next node h;;
  set_head node;;
  incr_length.

(** [while (current->next != nullptr) current = current->next;] *)
Fixpoint InsertBack_loop (fuel : nat) (current : ptr) : M ptr :=
  match fuel with
  | O => out_of_fuel
  | S fuel' =>
      nx ← load_next current;
      match nx with
      | Some _ => InsertBack_loop fuel' nx
      | None => mret current
      end
  end.

(** [void LinkedList::InsertBack (int data)] *)
Definition InsertBack (fuel : nat) (data : Z) : M unit :=
  node ← new_Node;
  store_data node data;;
  store_next node nullptr;;
  h ← get_head;
  match h with
  | None => set_head node
  | Some _ =>
      current ← InsertBack_loop fuel h;
      store_next current node
  end;;
  incr_length.

(** [for (int i = 0; i < n; i++) current = current->next;] runs its body
    [Z.to_nat n] times: no time when [n <= 0]. *)
Fixpoint advance (count : nat) (current : ptr) : M ptr :=
  match count with
  | O => mret current
  | S count' => nx ← load_next current; advance count' nx
  end.

(** [void LinkedList::InsertAt (int data, int index)]; the branch for
    [index == 1] ends in [return]. *)
Definition InsertAt (data : Z) (index : Z) : M unit :=
  node ← new_Node;
  store_data node data;;
  store_next node nullptr;;
  if index =? 1 then
    h ← get_head;
    store_next node h;;
    set_head node
  else
    current ← get_head;
    current ← advance (Z.to_nat (Int32.wrap (index - 2))) current;
    nx ← load_next current;
    store_next node nx;;
    store_next current node;;
    incr_length.

(** [void LinkedList::Delete (int index)]; the branch for [index == 1]
    ends in [return]. *)
Definition Delete (index : Z) : M unit :=
  current ← get_head;
  if index =? 1 then
    nx ← load_next current;
    set_head nx;;
    delete_Node current
  else
    current ← advance (Z.to_nat (Int32.wrap (index - 2))) current;
    nxt ← load_next current;
    nn ← load_next nxt;
    store_next current nn;;
    delete_Node nxt;;
    decr_length.

(** The loop of [Reverse], [while (current != nullptr)], with its locals
    [previous] and [current]. *)
Fixpoint Reverse_loop (fuel : nat) (previous current : ptr) : M ptr :=
  match fuel with
  | O => out_of_fuel
  | S fuel' =>
      match current with
      | None => mret previous
      | Some _ =>
          nxt ← load_next current;
          store_next current previous;;
          Reverse_loop fuel' current nxt
      end
  end.

(** [void LinkedList::Reverse ()] *)
Definition Reverse (fuel : nat) : M unit :=
  current ← get_head;
  previous ← Reverse_loop fuel nullptr current;
  set_head previous.

(** [void LinkedList::StartRecursionPrint (Node* head)]; the fuel bounds
    the depth of the recursion. *)
Fixpoint StartRecursionPrint (fuel : nat) (head : ptr) : M unit :=
  match fuel with
  | O => out_of_fuel
  | S fuel' =>
      match head with
      | None => mret tt
      | Some _ =>
          d ← load_data head;
          put_int d;;
          put_string " ";;
          nx ← load_next head;
          StartRecursionPrint fuel' nx
      end
  end.

(** [void LinkedList::PrintRecursion ()] *)
Definition PrintRecursion (fuel : nat) : M unit :=
  current ← get_head;
  StartRecursionPrint fuel current.

(** The loop of [Print], [while (current)]. *)
Fixpoint Print_loop (fuel : nat) (current : ptr) : M unit :=
  match fuel with
  | O => out_of_fuel
  | S fuel' =>
      match current with
      | None => mret tt
      | Some _ =>
          d ← load_data current;
          put_int d;;
          put_char " "%char;;
          nx ← load_next current;
          Print_loop fuel' nx
      end
  end.

(** [void LinkedList::Print ()] *)
Definition Print (fuel : nat) : M unit :=
  current ← get_head;
  Print_loop fuel current.

(** [int LinkedList::GetLength ()] *)
Definition GetLength : M Z := get_length.

(** ** The chain of nodes as a sequence *)

(** A cell of the chain: the address of a node and the value it holds. *)
Abbreviation cell := (loc * Z)%type.

(** [seg h p cs r]: following [next] from [p] in the heap [h] visits
    exactly the cells [cs], in order, and arrives at [r]. *)
Inductive seg (h : gmap loc Node) : ptr → list cell → ptr → Prop :=
| seg_nil p : seg h p [] p
| seg_cons l x q cs r :
    h !! l = Some {| data := x; next := q |} →
    seg h q cs r →
    seg h (Some l) ((l, x) :: cs) r.

(** Where a chain through the cells [cs] that arrives at [r] starts. *)
Definition first_ptr (cs : list cell) (r : ptr) : ptr :=
  match cs with
  | [] => r
  | c :: _ => Some c.1
  end.

(** The list holds the sequence [xs]: the chain from [head] visits nodes
    with these values and ends in [nullptr]. *)
Definition is_list (s : state) (xs : list Z) : Prop :=
  ∃ cs, seg (heap s) (head (this s)) cs nullptr ∧ cs.*2 = xs.

(** What a traversal prints for the sequence [xs]. *)
Fixpoint render (xs : list Z) : string :=
  match xs with
  | [] => ""
  | x :: xs' => pretty x +:+ " " +:+ render xs'
  end.

(** The sequence [xs] with [v] put at 1-based position [i], and with the
    element at 1-based position [i] taken out. *)
Definition insert_at (i : Z) (v : Z) (xs : list Z) : list Z :=
  take (Z.to_nat (i - 1)) xs ++ v :: drop (Z.to_nat (i - 1)) xs.
Definition remove_at (i : Z) (xs : list Z) : list Z :=
  take (Z.to_nat (i - 1)) xs ++ drop (Z.to_nat i) xs.

(** What a traversal of the list writes: [Print] returns, having written
    the values [xs] and nothing else, and leaves heap and object as they
    were. *)
Definition traversal (s : state) (xs : list Z) : Prop :=
  ∀ fuel, (List.length xs < fuel)%nat →
    Print fuel s = Done (tt, with_cout (cout s +:+ render xs) s).

(** The counter is in step: it is the number of nodes of the list. *)
Definition in_step (s : state) (xs : list Z) : Prop :=
  is_list s xs ∧ length (this s) = Z.of_nat (List.length xs).

(** ** States to try the methods on *)

(** The list 1, 2, 3 with its counter in step. *)
Definition list_123 : state :=
  {| heap := <[1%positive := {| data := 1; next := Some 2%positive |}]>
            (<[2%positive := {| data := 2; next := Some 3%positive |}]>
            (<[3%positive := {| data := 3; next := nullptr |}]> ∅));
     this := {| length := 3; head := Some 1%positive |};
     cout := "" |}.

(** The list 1, 9, 2, 3 with its counter in step. *)
Definition list_1923 : state :=
  {| heap := <[1%positive := {| data := 1; next := Some 4%positive |}]>
            (<[2%positive := {| data := 2; next := Some 3%positive |}]>
            (<[3%positive := {| data := 3; next := nullptr |}]>
            (<[4%positive := {| data := 9; next := Some 2%positive |}]> ∅)));
     this := {| length := 4; head := Some 1%positive |};
     cout := "" |}.

(** ** Sequences of calls *)

(** A call of one of the public methods, with its arguments. *)
Inductive call : Type :=
| CallInsertFront (data : Z)
| CallInsertBack (data : Z)
| CallInsertAt (data index : Z)
| CallDelete (index : Z)
| CallReverse
| CallPrint
| CallPrintRecursion
| CallGetLength.

Definition run_call (fuel : nat) (c : call) : M unit :=
  match c with
  | CallInsertFront data => InsertFront data
  | CallInsertBack data => InsertBack fuel data
  | CallInsertAt data index => InsertAt data index
  | CallDelete index => Delete index
  | CallReverse => Reverse fuel
  | CallPrint => Print fuel
  | CallPrintRecursion => PrintRecursion fuel
  | CallGetLength => _ ← GetLength; mret tt
  end.

(** The calls of a program that uses the list, one after the other. *)
Fixpoint run_calls (fuel : nat) (cs : list call) : M unit :=
  match cs with
  | [] => mret tt
  | c :: cs' => run_call fuel c;; run_calls fuel cs'
  end.

(** What a call does to the sequence the list holds, what it writes, and
    what it does to the [length] field. *)
Definition model_call (c : call) (xs : list Z) : list Z :=
  match c with
  | CallInsertFront v => v :: xs
  | CallInsertBack v => xs ++ [v]
  | CallInsertAt v i => insert_at i v xs
  | CallDelete i => remove_at i xs
  | CallReverse => reverse xs
  | CallPrint | CallPrintRecursion | CallGetLength => xs
  end.

Definition model_output (c : call) (xs : list Z) : string :=
  match c with
  | CallPrint | CallPrintRecursion => render xs
  | _ => ""
  end.

Definition model_length (c : call) (n : Z) : Z :=
  match c with
  | CallInsertFront _ | CallInsertBack _ => Int32.wrap (n + 1)
  | CallInsertAt _ i => if i =? 1 then n else Int32.wrap (n + 1)
  | CallDelete i => if i =? 1 then n else Int32.wrap (n - 1)
  | _ => n
  end.

Fixpoint model_calls (cs : list call) (xs : list Z) : list Z :=
  match cs with
  | [] => xs
  | c :: cs' => model_calls cs' (model_call c xs)
  end.

Fixpoint model_outputs (cs : list call) (xs : list Z) : string :=
  match cs with
  | [] => ""
  | c :: cs' => model_output c xs +:+ model_outputs cs' (model_call c xs)
  end.

Fixpoint model_lengths (cs : list call) (n : Z) : Z :=
  match cs with
  | [] => n
  | c :: cs' => model_lengths cs' (model_length c n)
  end.

(** A call whose index is an [int] that the sequence has a place for. *)
Definition valid_call (c : call) (xs : list Z) : Prop :=
  match c with
  | CallInsertAt _ i => 1 ≤ i ≤ Z.of_nat (List.length xs) + 1 ∧ Int32.in_range i
  | CallDelete i => 1 ≤ i ≤ Z.of_nat (List.length xs) ∧ Int32.in_range i
  | _ => True
  end.

Fixpoint valid_calls (cs : list call) (xs : list Z) : Prop :=
  match cs with
  | [] => True
  | c :: cs' => valid_call c xs ∧ valid_calls cs' (model_call c xs)
  end.

(** A call that does not take the branch for [index == 1]. *)
Definition off_front (c : call) : Prop :=
  match c with
  | CallInsertAt _ i | CallDelete i => i ≠ 1
  | _ => True
  end.

(** The heap without the nodes of the chain [cs]: what the rest of the
    program owns, cell by cell. *)
Definition rest (s : state) (cs : list cell) (l : loc) : option Node :=
  if decide (l ∈ cs.*1) then None else heap s !! l.

(** ** Facts about [int] *)

Lemma Int32_wrap_in_range z : Int32.in_range z → Int32.wrap z = z.
Proof.
  unfold Int32.in_range, Int32.min_signed, Int32.max_signed, Int32.wrap.
  intros. rewrite Z.mod_small; lia.
Qed.

Lemma Int32_wrap_range z : Int32.in_range (Int32.wrap z).
Proof.
  unfold Int32.in_range, Int32.min_signed, Int32.max_signed, Int32.wrap.
  pose proof (Z.mod_pos_bound (z + 2147483648) 4294967296). lia.
Qed.

(** ** Facts about chains *)

Section Chains.
Context (h : gmap loc Node).

Lemma seg_app p cs1 cs2 r :
  seg h p (cs1 ++ cs2) r ↔ ∃ q, seg h p cs1 q ∧ seg h q cs2 r.
Proof.
  revert p. induction cs1 as [|[l x] cs1 IH]; intros p; simpl.
  - split.
    + intros H. exists p. split; [constructor | done].
    + intros (q & H1 & H2). by inversion H1; subst.
  - split.
    + intros H. inversion H as [|? ? q ? ? Hl Hq]; subst.
      apply IH in Hq as (q' & H1 & H2).
      exists q'. split; [by econstructor | done].
    + intros (q & H1 & H2). inversion H1 as [|? ? q' ? ? Hl Hq]; subst.
      econstructor; [done|]. apply IH. eauto.
Qed.

Lemma seg_snoc p cs l x r :
  seg h p (cs ++ [(l, x)]) r ↔
  seg h p cs (Some l) ∧ h !! l = Some {| data := x; next := r |}.
Proof.
  rewrite seg_app. split.
  - intros (q & H1 & H2). inversion H2 as [|? ? q' ? ? Hl Hq]; subst.
    by inversion Hq; subst.
  - intros [H1 H2]. exists (Some l). split; [done|].
    econstructor; [done | constructor].
Qed.

Lemma seg_null cs r : seg h nullptr cs r → cs = [] ∧ r = nullptr.
Proof. by inversion 1. Qed.

(** A chain that ends in [nullptr] is determined by where it starts. *)
Lemma seg_functional p cs cs' :
  seg h p cs nullptr → seg h p cs' nullptr → cs = cs'.
Proof.
  intros H. revert cs'. remember nullptr as r eqn:Hr.
  induction H as [p|l x q cs r Hl Hq IH]; intros cs' H'; subst.
  - by apply seg_null in H' as [-> _].
  - inversion H' as [|? ? q' ? ? Hl' Hq']; subst.
    rewrite Hl in Hl'. injection Hl' as <- <-. f_equal. by apply IH.
Qed.

Lemma seg_allocated p cs r l :
  seg h p cs r → l ∈ cs.*1 → is_Some (h !! l).
Proof.
  induction 1 as [|l' x q cs r Hl Hq IH]; simpl.
  - by intros ?%elem_of_nil.
  - intros [->|?]%elem_of_cons; eauto.
Qed.

(** ... and visits no node twice. *)
Lemma seg_NoDup p cs : seg h p cs nullptr → NoDup cs.*1.
Proof.
  intros H. remember nullptr as r eqn:Hr.
  induction H as [p|l x q cs r Hl Hq IH]; subst; simpl.
  - constructor.
  - constructor; [|by apply IH].
    intros Hin. apply list_elem_of_fmap in Hin as ([l' x'] & Heq & Hin).
    simpl in Heq. subst l'.
    apply list_elem_of_split in Hin as (cs1 & cs2 & ->).
    pose proof Hq as Hq'. apply seg_app in Hq' as (q' & _ & H2).
    assert (q' = Some l) as -> by (by inversion H2).
    assert ((l, x') :: cs2 = (l, x) :: cs1 ++ (l, x') :: cs2) as Heq.
    { apply (seg_functional (Some l)); [done|]. by econstructor. }
    apply (f_equal List.length) in Heq. simpl in Heq.
    rewrite length_app in Heq. simpl in Heq. lia.
Qed.

Lemma seg_insert l nd p cs r :
  l ∉ cs.*1 → seg h p cs r → seg (<[l := nd]> h) p cs r.
Proof.
  intros Hl H. induction H as [|l' x q cs r Hl' Hq IH]; [constructor|].
  simpl in Hl. apply not_elem_of_cons in Hl as [Hne Hl].
  econstructor; [by rewrite lookup_insert_ne | by apply IH].
Qed.

Lemma seg_delete l p cs r :
  l ∉ cs.*1 → seg h p cs r → seg (delete l h) p cs r.
Proof.
  intros Hl H. induction H as [|l' x q cs r Hl' Hq IH]; [constructor|].
  simpl in Hl. apply not_elem_of_cons in Hl as [Hne Hl].
  econstructor; [by rewrite lookup_delete_ne | by apply IH].
Qed.

Lemma seg_first p cs r : seg h p cs r → p = first_ptr cs r.
Proof. by destruct 1. Qed.

Lemma seg_fresh p cs r : seg h p cs r → fresh (dom h) ∉ cs.*1.
Proof.
  intros H Hin. apply (seg_allocated _ _ _ _ H) in Hin.
  apply elem_of_dom in Hin. by apply is_fresh in Hin.
Qed.

End Chains.

(** The cells of a chain are the same in any two heaps that hold it. *)
Lemma seg_cells_agree h h' p p' cs l :
  seg h p cs nullptr → seg h' p' cs nullptr → l ∈ cs.*1 → h !! l = h' !! l.
Proof.
  intros H. remember nullptr as r eqn:Hr. revert p'.
  induction H as [p|l0 x q cs r Hl Hq IH]; intros p' H' Hin; subst; simpl in *.
  - by apply elem_of_nil in Hin.
  - inversion H' as [|? ? q' ? ? Hl' Hq']; subst.
    apply elem_of_cons in Hin as [->|Hin]; [|by eapply IH].
    apply seg_first in Hq, Hq'. congruence.
Qed.

(** ** Running method bodies step by step *)

Lemma bind_Done {A B} (m : M A) (k : A → M B) s a s' :
  m s = Done (a, s') → (m ≫= k) s = k a s'.
Proof. intros H. unfold mbind, M_bind. by rewrite H. Qed.

Lemma bind_Undefined {A B} (m : M A) (k : A → M B) s :
  m s = Undefined → (m ≫= k) s = Undefined.
Proof. intros H. unfold mbind, M_bind. by rewrite H. Qed.

Lemma bind_Done_inv {A B} (m : M A) (k : A → M B) s b s'' :
  (m ≫= k) s = Done (b, s'') →
  ∃ a s', m s = Done (a, s') ∧ k a s' = Done (b, s'').
Proof.
  unfold mbind, M_bind. destruct (m s) as [[a s']| |]; [|done..]. eauto.
Qed.

Lemma deref_Done_inv p nd s s' :
  deref p s = Done (nd, s') → ∃ l, p = Some l ∧ heap s !! l = Some nd ∧ s' = s.
Proof.
  unfold deref. destruct p as [l|]; [|done].
  destruct (heap s !! l) as [nd'|] eqn:Hl; [|done].
  intros [= -> ->]. eauto.
Qed.

Lemma deref_Done l nd s :
  heap s !! l = Some nd → deref (Some l) s = Done (nd, s).
Proof. intros H. unfold deref. by rewrite H. Qed.

Lemma load_next_Done l nd s :
  heap s !! l = Some nd → load_next (Some l) s = Done (next nd, s).
Proof. intros H. unfold load_next. by erewrite bind_Done by by apply deref_Done. Qed.

Lemma load_data_Done l nd s :
  heap s !! l = Some nd → load_data (Some l) s = Done (data nd, s).
Proof. intros H. unfold load_data. by erewrite bind_Done by by apply deref_Done. Qed.

Lemma store_Done l f nd s :
  heap s !! l = Some nd →
  store (Some l) f s = Done (tt, with_heap (<[l := f nd]> (heap s)) s).
Proof. intros H. unfold store. by rewrite H. Qed.

Lemma delete_Node_Done l nd s :
  heap s !! l = Some nd →
  delete_Node (Some l) s = Done (tt, with_heap (delete l (heap s)) s).
Proof. intros H. unfold delete_Node. by rewrite H. Qed.

(** Looking up a cell in a heap built by the stores done so far. *)
Ltac solve_lookup :=
  simpl;
  repeat first [ rewrite lookup_insert_eq
               | rewrite lookup_insert_ne by congruence
               | rewrite lookup_delete_ne by congruence ];
  first [ reflexivity | eassumption ].

(** Runs the first command of a sequence. *)
Ltac run_prim :=
  first [ eapply load_next_Done; solve_lookup
        | eapply load_data_Done; solve_lookup
        | unfold store_data, store_next; eapply store_Done; solve_lookup
        | eapply delete_Node_Done; solve_lookup
        | reflexivity ].

Ltac norm_state :=
  cbv beta; unfold with_heap, with_this, with_cout;
  cbn [heap this cout data next length head].

(** [step_with tac] runs the first command, [tac] proving what it returns. *)
Ltac step_with tac :=
  norm_state;
  lazymatch goal with
  | |- (?m ≫= ?k) ?s = _ =>
      etransitivity; [eapply (bind_Done m k s); tac |]; norm_state
  end.

Ltac step := step_with run_prim.

(** *** The loops, on a chain *)

Lemma append_nil_r (t : string) : t +:+ "" = t.
Proof.
  induction t as [|c t IH]; [done|].
  change (String c (t +:+ "") = String c t). by rewrite IH.
Qed.

Lemma append_assoc (t1 t2 t3 : string) : (t1 +:+ t2) +:+ t3 = t1 +:+ t2 +:+ t3.
Proof.
  induction t1 as [|c t1 IH]; [done|].
  change (String c ((t1 +:+ t2) +:+ t3) = String c (t1 +:+ t2 +:+ t3)). by rewrite IH.
Qed.

Lemma advance_seg s p cs q :
  seg (heap s) p cs q → advance (List.length cs) p s = Done (q, s).
Proof.
  induction 1 as [|l x q cs r Hl Hq IH]; simpl; [done|].
  erewrite bind_Done by by eapply load_next_Done. done.
Qed.

(** Walking [count] links along a chain of no more than [count] nodes and
    then reading [next] dereferences [nullptr]. *)
Lemma advance_overrun {A} s p cs count (k : ptr → ptr → M A) :
  seg (heap s) p cs nullptr →
  (List.length cs ≤ count)%nat →
  (current ← advance count p; nx ← load_next current; k current nx) s = Undefined.
Proof.
  intros H. remember nullptr as r eqn:Hr. revert count.
  induction H as [p|l x q cs r Hl Hq IH]; intros count Hn; subst.
  - destruct count as [|count]; simpl; [done|].
    apply bind_Undefined. by apply bind_Undefined.
  - destruct count as [|count]; simpl in *; [lia|].
    unfold mbind, M_bind in *. erewrite load_next_Done by done. simpl.
    apply IH; [done | lia].
Qed.

Lemma InsertBack_loop_seg s fuel p cs l x :
  seg (heap s) p (cs ++ [(l, x)]) nullptr →
  (List.length cs < fuel)%nat →
  InsertBack_loop fuel p s = Done (Some l, s).
Proof.
  revert fuel p. induction cs as [|[l' x'] cs IH]; intros fuel p H Hf;
    (destruct fuel as [|fuel]; [simpl in Hf; lia|]); simpl in *.
  - inversion H as [|? ? q ? ? Hl Hq]; subst. inversion Hq; subst.
    erewrite bind_Done by by eapply load_next_Done. done.
  - inversion H as [|? ? q ? ? Hl Hq]; subst.
    erewrite bind_Done by by eapply load_next_Done. simpl.
    destruct q as [lq|].
    + apply IH; [done | lia].
    + apply seg_null in Hq as [Hq _]. by destruct cs.
Qed.

Lemma Print_loop_seg s fuel p cs :
  seg (heap s) p cs nullptr →
  (List.length cs < fuel)%nat →
  Print_loop fuel p s = Done (tt, with_cout (cout s +:+ render cs.*2) s).
Proof.
  revert s fuel p.
  induction cs as [|[l x] cs IH]; intros s fuel p H Hf;
    (destruct fuel as [|fuel]; [simpl in Hf; lia|]); simpl in *.
  - inversion H; subst. unfold with_cout. rewrite append_nil_r.
    by destruct s.
  - inversion H as [|? ? q ? ? Hl Hq]; subst.
    unfold put_char. do 4 step.
    rewrite IH; [|done|lia]. norm_state.
    by rewrite !append_assoc.
Qed.

Lemma StartRecursionPrint_seg s fuel p cs :
  seg (heap s) p cs nullptr →
  (List.length cs < fuel)%nat →
  StartRecursionPrint fuel p s = Done (tt, with_cout (cout s +:+ render cs.*2) s).
Proof.
  revert s fuel p.
  induction cs as [|[l x] cs IH]; intros s fuel p H Hf;
    (destruct fuel as [|fuel]; [simpl in Hf; lia|]); simpl in *.
  - inversion H; subst. unfold with_cout. rewrite append_nil_r.
    by destruct s.
  - inversion H as [|? ? q ? ? Hl Hq]; subst.
    do 4 step.
    rewrite IH; [|done|lia]. norm_state.
    by rewrite !append_assoc.
Qed.

(** *** The methods, on any state in which their dereferences are valid *)

Ltac finish :=
  norm_state; unfold incr_length, decr_length;
  try (erewrite bind_Done by reflexivity);
  unfold set_length, set_head, delete_Node; norm_state;
  rewrite ?insert_insert_eq; reflexivity.

Lemma InsertFront_exec s v :
  let l := fresh (dom (heap s)) in
  InsertFront v s =
    Done (tt, {| heap := <[l := {| data := v; next := head (this s) |}]> (heap s);
                 this := {| length := Int32.wrap (length (this s) + 1); head := Some l |};
                 cout := cout s |}).
Proof. intros l. unfold InsertFront. do 5 step. finish. Qed.

Lemma InsertAt_front_exec s v :
  let l := fresh (dom (heap s)) in
  InsertAt v 1 s =
    Done (tt, {| heap := <[l := {| data := v; next := head (this s) |}]> (heap s);
                 this := {| length := length (this s); head := Some l |};
                 cout := cout s |}).
Proof. intros l. unfold InsertAt. do 3 step. simpl. do 2 step. finish. Qed.

Lemma fresh_not_allocated (h : gmap loc Node) l nd :
  h !! l = Some nd → fresh (dom h) ≠ l.
Proof.
  intros H <-. apply (is_fresh (dom h)). apply elem_of_dom. eauto.
Qed.

Lemma InsertAt_exec s v index cs l0 nd0 :
  index ≠ 1 →
  seg (heap s) (head (this s)) cs (Some l0) →
  List.length cs = Z.to_nat (Int32.wrap (index - 2)) →
  heap s !! l0 = Some nd0 →
  let l := fresh (dom (heap s)) in
  InsertAt v index s =
    Done (tt, {| heap := <[l0 := {| data := data nd0; next := Some l |}]>
                           (<[l := {| data := v; next := next nd0 |}]> (heap s));
                 this := {| length := Int32.wrap (length (this s) + 1);
                            head := head (this s) |};
                 cout := cout s |}).
Proof.
  intros Hne Hseg Hlen Hl0 l. unfold InsertAt.
  pose proof (fresh_not_allocated _ _ _ Hl0) as Hfresh.
  do 3 step. destruct (Z.eqb_spec index 1) as [|_]; [done|].
  step. rewrite !insert_insert_eq, <-Hlen.
  step_with ltac:(apply advance_seg; norm_state; apply seg_insert;
                  [by eapply seg_fresh | done]).
  do 3 step. finish.
Qed.

Lemma InsertBack_empty_exec s fuel v :
  head (this s) = nullptr →
  let l := fresh (dom (heap s)) in
  InsertBack fuel v s =
    Done (tt, {| heap := <[l := {| data := v; next := nullptr |}]> (heap s);
                 this := {| length := Int32.wrap (length (this s) + 1); head := Some l |};
                 cout := cout s |}).
Proof.
  intros Hhd l. unfold InsertBack. do 4 step. rewrite Hhd. step. finish.
Qed.

Lemma InsertBack_exec s fuel v cs l0 x0 :
  seg (heap s) (head (this s)) (cs ++ [(l0, x0)]) nullptr →
  (List.length cs < fuel)%nat →
  let l := fresh (dom (heap s)) in
  InsertBack fuel v s =
    Done (tt, {| heap := <[l0 := {| data := x0; next := Some l |}]>
                           (<[l := {| data := v; next := nullptr |}]> (heap s));
                 this := {| length := Int32.wrap (length (this s) + 1);
                            head := head (this s) |};
                 cout := cout s |}).
Proof.
  intros Hseg Hfuel l. unfold InsertBack.
  pose proof Hseg as [_ Hl0]%seg_snoc.
  pose proof (fresh_not_allocated _ _ _ Hl0) as Hfresh.
  do 4 step. rewrite !insert_insert_eq.
  destruct (head (this s)) as [lh|] eqn:Hhd.
  - step_with ltac:(
      step_with ltac:(eapply InsertBack_loop_seg; [|done]; norm_state;
                      apply seg_insert; [by eapply seg_fresh | done]);
      run_prim).
    rewrite <-Hhd. finish.
  - apply seg_null in Hseg as [Hnil _]. by destruct cs.
Qed.

Lemma Delete_front_exec s l0 nd0 :
  head (this s) = Some l0 →
  heap s !! l0 = Some nd0 →
  Delete 1 s =
    Done (tt, {| heap := delete l0 (heap s);
                 this := {| length := length (this s); head := next nd0 |};
                 cout := cout s |}).
Proof.
  intros Hhd Hl0. unfold Delete. step. simpl. rewrite Hhd. do 2 step.
  unfold set_head. norm_state. by erewrite delete_Node_Done by solve_lookup.
Qed.

Lemma Delete_exec s index cs l0 nd0 l1 nd1 :
  index ≠ 1 →
  seg (heap s) (head (this s)) cs (Some l0) →
  List.length cs = Z.to_nat (Int32.wrap (index - 2)) →
  heap s !! l0 = Some nd0 →
  next nd0 = Some l1 →
  heap s !! l1 = Some nd1 →
  l0 ≠ l1 →
  Delete index s =
    Done (tt, {| heap := delete l1 (<[l0 := {| data := data nd0; next := next nd1 |}]> (heap s));
                 this := {| length := Int32.wrap (length (this s) - 1);
                            head := head (this s) |};
                 cout := cout s |}).
Proof.
  intros Hne Hseg Hlen Hl0 Hnx Hl1 Hne01. unfold Delete.
  step. destruct (Z.eqb_spec index 1) as [|_]; [done|].
  rewrite <-Hlen. step_with ltac:(by apply advance_seg).
  step. rewrite Hnx. do 3 step. finish.
Qed.

Lemma Reverse_loop_seg cs : ∀ s fuel previous current ps,
  seg (heap s) current cs nullptr →
  seg (heap s) previous ps nullptr →
  (∀ l, l ∈ cs.*1 → l ∉ ps.*1) →
  (List.length cs < fuel)%nat →
  ∃ h' p',
    Reverse_loop fuel previous current s = Done (p', with_heap h' s) ∧
    seg h' p' (reverse cs ++ ps) nullptr ∧
    (∀ l, l ∉ cs.*1 → h' !! l = heap s !! l) ∧
    (∀ l, data <$> h' !! l = data <$> heap s !! l).
Proof.
  induction cs as [|[l x] cs IH]; intros s fuel previous current ps Hc Hp Hdisj Hf;
    (destruct fuel as [|fuel]; [simpl in Hf; lia|]); simpl in *.
  - inversion Hc; subst. exists (heap s), previous.
    split_and!; [by destruct s | done | done | done].
  - pose proof (seg_NoDup _ _ _ Hc) as [Hl_cs _]%NoDup_cons.
    inversion Hc as [|? ? q ? ? Hl Hq]; subst.
    assert (l ∉ ps.*1) as Hl_ps by (apply Hdisj; left).
    set (s1 := with_heap (<[l := {| data := x; next := previous |}]> (heap s)) s).
    destruct (IH s1 fuel (Some l) q ((l, x) :: ps)) as (h' & p' & Hrun & Hseg & Hframe & Hdata).
    { by apply seg_insert. }
    { econstructor; [apply lookup_insert_eq | by apply seg_insert]. }
    { intros l' Hin [->|Hin']%elem_of_cons; [done|].
      apply (Hdisj l'); [by right | done]. }
    { lia. }
    exists h', p'. split_and!.
    + do 2 step. apply Hrun.
    + by rewrite reverse_cons, <-app_assoc.
    + intros l' [Hne Hl']%not_elem_of_cons.
      rewrite Hframe by done. simpl. by rewrite lookup_insert_ne.
    + intros l'. rewrite Hdata. simpl.
      destruct (decide (l = l')) as [<-|Hne].
      * by rewrite lookup_insert_eq, Hl.
      * by rewrite lookup_insert_ne.
Qed.

Lemma Reverse_exec s fuel cs :
  seg (heap s) (head (this s)) cs nullptr →
  (List.length cs < fuel)%nat →
  ∃ h' p',
    Reverse fuel s = Done (tt, {| heap := h';
                                  this := {| length := length (this s); head := p' |};
                                  cout := cout s |}) ∧
    seg h' p' (reverse cs) nullptr ∧
    (∀ l, l ∉ cs.*1 → h' !! l = heap s !! l) ∧
    (∀ l, data <$> h' !! l = data <$> heap s !! l).
Proof.
  intros Hseg Hf.
  destruct (Reverse_loop_seg cs s fuel nullptr (head (this s)) [])
    as (h' & p' & Hrun & Hseg' & Hframe & Hdata);
    [done | constructor | by intros ? _ ?%elem_of_nil | done |].
  exists h', p'. rewrite app_nil_r in Hseg'. split_and!; [|done..].
  unfold Reverse. step. step_with ltac:(apply Hrun). done.
Qed.

(** *** Insertion and deletion behind the node that [advance] stops at *)

Lemma InsertAt_after s v index cs1 l0 x0 cs2 :
  index ≠ 1 →
  seg (heap s) (head (this s)) (cs1 ++ (l0, x0) :: cs2) nullptr →
  List.length cs1 = Z.to_nat (Int32.wrap (index - 2)) →
  ∃ s', InsertAt v index s = Done (tt, s') ∧
        seg (heap s') (head (this s'))
            (cs1 ++ (l0, x0) :: (fresh (dom (heap s)), v) :: cs2) nullptr ∧
        length (this s') = Int32.wrap (length (this s) + 1) ∧
        cout s' = cout s.
Proof.
  intros Hne Hseg Hlen.
  pose proof (seg_NoDup _ _ _ Hseg) as Hnd.
  pose proof (seg_fresh _ _ _ _ Hseg) as Hfresh.
  rewrite fmap_app, fmap_cons in Hnd, Hfresh. simpl in Hnd, Hfresh.
  apply NoDup_app in Hnd as (_ & Hl0_cs1 & [Hl0_cs2 _]%NoDup_cons).
  apply not_elem_of_app in Hfresh as [Hf1 [Hf0 Hf2]%not_elem_of_cons].
  apply seg_app in Hseg as (q & Hseg1 & Hseg2).
  inversion Hseg2 as [|? ? q2 ? ? Hl0 Hq2]; subst.
  eexists. split; [by eapply InsertAt_exec|]. norm_state. split_and!; [|done..].
  apply seg_app. exists (Some l0). split.
  { apply seg_insert; [|by apply seg_insert].
    intros Hin. by apply (Hl0_cs1 l0); [|left]. }
  econstructor; [apply lookup_insert_eq|].
  econstructor; [by rewrite lookup_insert_ne, lookup_insert_eq|].
  by do 2 (apply seg_insert; [done|]).
Qed.

Lemma Delete_after s index cs1 l0 x0 l1 x1 cs2 :
  index ≠ 1 →
  seg (heap s) (head (this s)) (cs1 ++ (l0, x0) :: (l1, x1) :: cs2) nullptr →
  List.length cs1 = Z.to_nat (Int32.wrap (index - 2)) →
  ∃ s', Delete index s = Done (tt, s') ∧
        seg (heap s') (head (this s')) (cs1 ++ (l0, x0) :: cs2) nullptr ∧
        length (this s') = Int32.wrap (length (this s) - 1) ∧
        cout s' = cout s.
Proof.
  intros Hne Hseg Hlen.
  pose proof (seg_NoDup _ _ _ Hseg) as Hnd.
  rewrite fmap_app, !fmap_cons in Hnd. simpl in Hnd.
  apply NoDup_app in Hnd as (Hnd1 & Hcs1 & [Hl0 [Hl1_cs2 _]%NoDup_cons]%NoDup_cons).
  apply not_elem_of_cons in Hl0 as [Hne01 Hl0_cs2].
  apply seg_app in Hseg as (q & Hseg1 & Hseg2).
  inversion Hseg2 as [|? ? q1 ? ? Hl0 Hq1]; subst.
  inversion Hq1 as [|? ? q2 ? ? Hl1 Hq2]; subst.
  eexists. split; [by eapply Delete_exec|]. norm_state. split_and!; [|done..].
  apply seg_app. exists (Some l0). split.
  { apply seg_delete; [|apply seg_insert; [|done]].
    - intros Hin. apply (Hcs1 l1); [done | by right; left].
    - intros Hin. by apply (Hcs1 l0); [|left]. }
  econstructor; [by rewrite lookup_delete_ne, lookup_insert_eq|].
  apply seg_delete; [done|]. by apply seg_insert.
Qed.

(** Asking for a node the chain does not have dereferences [nullptr]. *)
Lemma InsertAt_overrun s v index cs :
  index ≠ 1 →
  seg (heap s) (head (this s)) cs nullptr →
  (List.length cs ≤ Z.to_nat (Int32.wrap (index - 2)))%nat →
  InsertAt v index s = Undefined.
Proof.
  intros Hne Hseg Hlen. unfold InsertAt.
  do 3 step. destruct (Z.eqb_spec index 1) as [|_]; [done|].
  step. rewrite !insert_insert_eq.
  eapply advance_overrun; [|done]. norm_state.
  apply seg_insert; [by eapply seg_fresh | done].
Qed.

Lemma Delete_overrun s index cs :
  index ≠ 1 →
  seg (heap s) (head (this s)) cs nullptr →
  (List.length cs ≤ S (Z.to_nat (Int32.wrap (index - 2))))%nat →
  Delete index s = Undefined.
Proof.
  intros Hne Hseg Hlen. unfold Delete.
  step. destruct (Z.eqb_spec index 1) as [|_]; [done|].
  destruct (decide (List.length cs ≤ Z.to_nat (Int32.wrap (index - 2)))%nat) as [Hle|Hgt].
  { by eapply advance_overrun. }
  destruct cs as [|[l x] cs _] using rev_ind; [simpl in Hgt; lia|].
  rewrite length_app in Hlen, Hgt. simpl in Hlen, Hgt.
  apply seg_snoc in Hseg as [Hseg Hl].
  replace (Z.to_nat (Int32.wrap (index - 2))) with (List.length cs) by lia.
  step_with ltac:(by apply advance_seg). step. by apply bind_Undefined.
Qed.

Lemma Delete_front_empty s :
  head (this s) = nullptr → Delete 1 s = Undefined.
Proof. intros Hhd. unfold Delete. step. simpl. rewrite Hhd. by apply bind_Undefined. Qed.

(** ** Sequences *)

Lemma split_at {A} (l : list A) (n : nat) :
  (n < List.length l)%nat →
  ∃ l1 x l2, l = l1 ++ x :: l2 ∧ List.length l1 = n.
Proof.
  intros Hn. destruct (lookup_lt_is_Some_2 l n Hn) as [x Hx].
  exists (take n l), x, (drop (S n) l). split.
  - by rewrite take_drop_middle.
  - rewrite length_take. lia.
Qed.

Lemma insert_at_app (a b : list Z) v i :
  i = Z.of_nat (List.length a) + 1 → insert_at i v (a ++ b) = a ++ v :: b.
Proof.
  intros ->. unfold insert_at.
  replace (Z.to_nat (Z.of_nat (List.length a) + 1 - 1)) with (List.length a) by lia.
  by rewrite take_app_length, drop_app_length.
Qed.

Lemma remove_at_app (a b : list Z) x i :
  i = Z.of_nat (List.length a) + 1 → remove_at i (a ++ x :: b) = a ++ b.
Proof.
  intros ->. unfold remove_at.
  replace (Z.to_nat (Z.of_nat (List.length a) + 1 - 1)) with (List.length a) by lia.
  replace (Z.to_nat (Z.of_nat (List.length a) + 1)) with (S (List.length a)) by lia.
  rewrite take_app_length.
  by rewrite (cons_middle x a b), app_assoc, drop_app_length'
    by (rewrite length_app; simpl; lia).
Qed.

Lemma insert_at_lookup (xs : list Z) v i :
  1 ≤ i ≤ Z.of_nat (List.length xs) + 1 →
  insert_at i v xs !! Z.to_nat (i - 1) = Some v.
Proof.
  intros Hi. unfold insert_at. apply list_lookup_middle.
  rewrite length_take. lia.
Qed.

Example insert_at_example : insert_at 2 9 [1; 2; 3] = [1; 9; 2; 3].
Proof. reflexivity. Qed.

Example remove_at_example : remove_at 2 [1; 9; 2; 3] = [1; 2; 3].
Proof. reflexivity. Qed.

(** ** The list as a sequence *)

Lemma is_list_traversal s xs : is_list s xs → traversal s xs.
Proof.
  intros (cs & Hseg & <-) fuel Hf. unfold Print. step.
  apply Print_loop_seg; [done | by rewrite length_fmap in Hf].
Qed.

Lemma is_list_nil s : is_list s [] ↔ head (this s) = nullptr.
Proof.
  split.
  - intros (cs & Hseg & Hnil). apply fmap_nil_inv in Hnil as ->. by inversion Hseg.
  - intros Hhd. exists []. rewrite Hhd. split; [constructor | done].
Qed.

Lemma GetLength_spec s : GetLength s = Done (length (this s), s).
Proof. reflexivity. Qed.

(** The sequence a list holds is unique. *)
Lemma is_list_functional s xs ys : is_list s xs → is_list s ys → xs = ys.
Proof.
  intros (cs & Hseg & <-) (cs' & Hseg' & <-).
  by rewrite (seg_functional _ _ _ _ Hseg Hseg').
Qed.

(** A newly constructed list is the empty list. *)
Lemma LinkedList_new_is_list h o : is_list (LinkedList_new h o) [].
Proof. by apply is_list_nil. Qed.

(** The states on which the traversal returns are exactly the lists:
    wherever [Print] returns, the chain from [head] ends in [nullptr]. *)
Lemma Print_loop_returns fuel : ∀ p s s',
  Print_loop fuel p s = Done (tt, s') →
  ∃ cs, seg (heap s) p cs nullptr ∧ (List.length cs < fuel)%nat.
Proof.
  induction fuel as [|fuel IH]; intros p s s' Hrun; simpl in Hrun; [done|].
  destruct p as [l|]; [|exists []; split; [constructor | simpl; lia]].
  apply bind_Done_inv in Hrun as (d & s1 & Hdata & Hrun).
  apply bind_Done_inv in Hdata as (nd & s0 & Hderef & [= <- <-]).
  apply deref_Done_inv in Hderef as (? & [= <-] & Hl & ->).
  apply bind_Done_inv in Hrun as ([] & s2 & [= <-] & Hrun).
  apply bind_Done_inv in Hrun as ([] & s3 & [= <-] & Hrun).
  apply bind_Done_inv in Hrun as (q & s4 & Hnext & Hrun).
  apply bind_Done_inv in Hnext as (nd' & s5 & Hderef & [= <- <-]).
  apply deref_Done_inv in Hderef as (? & [= <-] & Hl' & ->).
  simpl in Hl'. rewrite Hl in Hl'. injection Hl' as <-.
  apply IH in Hrun as (cs & Hseg & Hlen). simpl in Hseg.
  exists ((l, data nd) :: cs). split; [|simpl; lia].
  econstructor; [|done]. by destruct nd.
Qed.

Lemma Print_returns_is_list s fuel s' :
  Print fuel s = Done (tt, s') →
  ∃ xs, is_list s xs ∧ (List.length xs < fuel)%nat.
Proof.
  intros Hrun. apply Print_loop_returns in Hrun as (cs & Hseg & Hlen).
  exists cs.*2. split; [by exists cs | by rewrite length_fmap].
Qed.

(** ** Example states *)

Lemma list_123_is_list : is_list list_123 [1; 2; 3].
Proof.
  exists [(1%positive, 1); (2%positive, 2); (3%positive, 3)].
  split; [|done]. repeat econstructor.
Qed.

Lemma list_1923_is_list : is_list list_1923 [1; 9; 2; 3].
Proof.
  exists [(1%positive, 1); (4%positive, 9); (2%positive, 2); (3%positive, 3)].
  split; [|done]. repeat econstructor.
Qed.

(** ** The methods on lists *)

(** C8: on every list, the empty one included, and for every value [v],
    [InsertFront v] returns; a traversal then yields [v] followed by the
    prior sequence; the [length] field is incremented as an [int], which is
    by exactly one whenever [length + 1] is an [int]. *)
Theorem InsertFront_spec s xs v :
  is_list s xs →
  ∃ s', InsertFront v s = Done (tt, s') ∧
        is_list s' (v :: xs) ∧
        traversal s' (v :: xs) ∧
        length (this s') = Int32.wrap (length (this s) + 1) ∧
        (Int32.in_range (length (this s) + 1) →
         length (this s') = length (this s) + 1).
Proof.
  intros (cs & Hseg & <-).
  eexists. split; [apply InsertFront_exec|].
  assert (is_list
    {| heap := <[fresh (dom (heap s)) := {| data := v; next := head (this s) |}]> (heap s);
       this := {| length := Int32.wrap (length (this s) + 1);
                  head := Some (fresh (dom (heap s))) |};
       cout := cout s |} (v :: cs.*2)) as Hlist.
  { exists ((fresh (dom (heap s)), v) :: cs). split; [|done]. norm_state.
    econstructor; [apply lookup_insert_eq|].
    apply seg_insert; [by eapply seg_fresh | done]. }
  split_and!; [done | by apply is_list_traversal | done |].
  norm_state. apply Int32_wrap_in_range.
Qed.

Lemma InsertFront_spec_witness :
  is_list list_123 [1; 2; 3] ∧
  Int32.in_range (length (this list_123) + 1) ∧
  ∃ s', InsertFront 7 list_123 = Done (tt, s') ∧
        is_list s' [7; 1; 2; 3] ∧
        traversal s' [7; 1; 2; 3] ∧
        length (this s') = 4.
Proof.
  assert (Int32.in_range (length (this list_123) + 1)) as Hfit
    by (unfold Int32.in_range, Int32.min_signed, Int32.max_signed; simpl; lia).
  split; [exact list_123_is_list|]. split; [exact Hfit|].
  destruct (InsertFront_spec list_123 [1; 2; 3] 7 list_123_is_list)
    as (s' & Hrun & Hlist & Htrav & _ & Hlen).
  exists s'. split; [exact Hrun|]. split; [exact Hlist|]. split; [exact Htrav|].
  exact (Hlen Hfit).
Defined.

(** C9: on every list the iterative traversal [Print] and the recursive
    traversal [PrintRecursion] return the same result: both write the
    values of the list from first to last, each followed by a space, and
    neither changes the heap or the fields of the list. *)
Theorem Print_PrintRecursion s xs fuel :
  is_list s xs →
  (List.length xs < fuel)%nat →
  ∃ s', Print fuel s = Done (tt, s') ∧
        PrintRecursion fuel s = Done (tt, s') ∧
        cout s' = cout s +:+ render xs ∧
        heap s' = heap s ∧
        this s' = this s.
Proof.
  intros (cs & Hseg & <-) Hf. rewrite length_fmap in Hf.
  exists (with_cout (cout s +:+ render cs.*2) s). split_and!; [| |done..].
  - unfold Print. step. by apply Print_loop_seg.
  - unfold PrintRecursion. step. by apply StartRecursionPrint_seg.
Qed.

Lemma Print_PrintRecursion_witness :
  is_list list_123 [1; 2; 3] ∧ (List.length [1; 2; 3] < 4)%nat ∧
  ∃ s', Print 4 list_123 = Done (tt, s') ∧
        PrintRecursion 4 list_123 = Done (tt, s') ∧
        cout s' = cout list_123 +:+ render [1; 2; 3] ∧
        heap s' = heap list_123 ∧
        this s' = this list_123.
Proof.
  split; [exact list_123_is_list|]. split; [simpl; lia|].
  apply (Print_PrintRecursion list_123 [1; 2; 3] 4); [exact list_123_is_list | simpl; lia].
Defined.

Example Print_list_123 :
  Print 4 list_123 = Done (tt, with_cout "1 2 3 " list_123) ∧
  PrintRecursion 4 list_123 = Done (tt, with_cout "1 2 3 " list_123).
Proof. split; vm_compute; reflexivity. Qed.

Lemma seg_push h p cs v :
  seg h p cs nullptr →
  seg (<[fresh (dom h) := {| data := v; next := p |}]> h)
      (Some (fresh (dom h))) ((fresh (dom h), v) :: cs) nullptr.
Proof.
  intros Hseg. econstructor; [apply lookup_insert_eq|].
  apply seg_insert; [by eapply seg_fresh | done].
Qed.

(** [InsertAt] with an index the list has a place for. *)
Lemma InsertAt_list s xs v i :
  is_list s xs →
  1 ≤ i ≤ Z.of_nat (List.length xs) + 1 →
  Int32.in_range i →
  ∃ s', InsertAt v i s = Done (tt, s') ∧
        is_list s' (insert_at i v xs) ∧
        length (this s') =
          (if i =? 1 then length (this s) else Int32.wrap (length (this s) + 1)) ∧
        cout s' = cout s.
Proof.
  intros (cs & Hseg & <-) Hi Hint. rewrite length_fmap in Hi.
  destruct (Z.eqb_spec i 1) as [->|Hne].
  - eexists. split; [apply InsertAt_front_exec|]. split_and!; [|done..].
    eexists. split; [by apply seg_push | done].
  - destruct (split_at cs (Z.to_nat (i - 2))) as (cs1 & [l0 x0] & cs2 & -> & Hlen); [lia|].
    destruct (InsertAt_after s v i cs1 l0 x0 cs2) as (s' & Hrun & Hseg' & Hlen' & Hout);
      [done | done | |].
    { rewrite Int32_wrap_in_range; [done|].
      unfold Int32.in_range, Int32.min_signed, Int32.max_signed in *. lia. }
    exists s'. split_and!; [done | | done..].
    eexists. split; [done|].
    rewrite !fmap_app, !fmap_cons. simpl.
    transitivity (insert_at i v ((cs1.*2 ++ [x0]) ++ cs2.*2));
      [|by rewrite <-app_assoc].
    rewrite insert_at_app; [by rewrite <-app_assoc|].
    rewrite length_app, length_fmap. simpl. lia.
Qed.

(** [Delete] with the index of a node of the list. *)
Lemma Delete_list s xs i :
  is_list s xs →
  1 ≤ i ≤ Z.of_nat (List.length xs) →
  Int32.in_range i →
  ∃ s', Delete i s = Done (tt, s') ∧
        is_list s' (remove_at i xs) ∧
        length (this s') =
          (if i =? 1 then length (this s) else Int32.wrap (length (this s) - 1)) ∧
        cout s' = cout s.
Proof.
  intros (cs & Hseg & <-) Hi Hint. rewrite length_fmap in Hi.
  destruct (Z.eqb_spec i 1) as [->|Hne].
  - destruct cs as [|[l0 x0] cs]; [simpl in Hi; lia|].
    pose proof (seg_NoDup _ _ _ Hseg) as [Hl0 _]%NoDup_cons.
    inversion Hseg as [|? ? q ? ? Hl Hq Hhd]; subst.
    eexists. split; [by eapply Delete_front_exec|]. split_and!; [|done..].
    exists cs. split; [|done]. norm_state. by apply seg_delete.
  - destruct (split_at cs (Z.to_nat (i - 2))) as (cs1 & [l0 x0] & cs2 & -> & Hlen); [lia|].
    rewrite length_app in Hi. simpl in Hi.
    destruct cs2 as [|[l1 x1] cs2]; [simpl in Hi; lia|].
    destruct (Delete_after s i cs1 l0 x0 l1 x1 cs2) as (s' & Hrun & Hseg' & Hlen' & Hout);
      [done | done | |].
    { rewrite Int32_wrap_in_range; [done|].
      unfold Int32.in_range, Int32.min_signed, Int32.max_signed in *. lia. }
    exists s'. split_and!; [done | | done..].
    eexists. split; [done|].
    rewrite !fmap_app, !fmap_cons. simpl.
    transitivity (remove_at i ((cs1.*2 ++ [x0]) ++ x1 :: cs2.*2));
      [|by rewrite <-app_assoc].
    rewrite remove_at_app; [by rewrite <-app_assoc|].
    rewrite length_app, length_fmap. simpl. lia.
Qed.

(** C5: on a list holding the sequence [xs], for every 1-based index [i]
    with [1 <= i <= length xs + 1], [InsertAt v i] returns, and a traversal
    then yields [xs] with [v] inserted so that it is at position [i]. *)
Theorem InsertAt_spec s xs v i :
  is_list s xs →
  1 ≤ i ≤ Z.of_nat (List.length xs) + 1 →
  Int32.in_range i →
  ∃ s', InsertAt v i s = Done (tt, s') ∧
        is_list s' (insert_at i v xs) ∧
        traversal s' (insert_at i v xs) ∧
        insert_at i v xs !! Z.to_nat (i - 1) = Some v.
Proof.
  intros Hlist Hi Hint.
  destruct (InsertAt_list s xs v i) as (s' & Hrun & Hlist' & _); [done..|].
  exists s'. split_and!; [done | done | by apply is_list_traversal |].
  by apply insert_at_lookup.
Qed.

Lemma InsertAt_spec_witness :
  is_list list_123 [1; 2; 3] ∧
  1 ≤ 2 ≤ Z.of_nat (List.length [1; 2; 3]) + 1 ∧
  Int32.in_range 2 ∧
  ∃ s', InsertAt 9 2 list_123 = Done (tt, s') ∧
        is_list s' [1; 9; 2; 3] ∧
        traversal s' [1; 9; 2; 3] ∧
        [1; 9; 2; 3] !! 1%nat = Some 9.
Proof.
  assert (Int32.in_range 2) as Hint
    by (unfold Int32.in_range, Int32.min_signed, Int32.max_signed; lia).
  assert (1 ≤ 2 ≤ Z.of_nat (List.length [1; 2; 3]) + 1) as Hi by (simpl; lia).
  exact (conj list_123_is_list (conj Hi (conj Hint
           (InsertAt_spec list_123 [1; 2; 3] 9 2 list_123_is_list Hi Hint)))).
Defined.

Example InsertAt_list_123 : InsertAt 9 2 list_123 = Done (tt, list_1923).
Proof. vm_compute. reflexivity. Qed.

(** C3: on every list, [InsertAt v 1] puts [v] at the front and leaves the
    [length] field as it was, whereas for every index [i] with
    [2 <= i <= length xs + 1], [InsertAt v i] increments the [length] field,
    as an [int]: by exactly one whenever [length + 1] is an [int]. *)
Theorem InsertAt_length s xs v :
  is_list s xs →
  (∃ s', InsertAt v 1 s = Done (tt, s') ∧
         is_list s' (v :: xs) ∧
         length (this s') = length (this s)) ∧
  (∀ i, 2 ≤ i ≤ Z.of_nat (List.length xs) + 1 →
        Int32.in_range i →
        ∃ s', InsertAt v i s = Done (tt, s') ∧
              length (this s') = Int32.wrap (length (this s) + 1) ∧
              (Int32.in_range (length (this s) + 1) →
               length (this s') = length (this s) + 1)).
Proof.
  intros Hlist. split.
  - destruct (InsertAt_list s xs v 1) as (s' & Hrun & Hlist' & Hlen & _);
      [done | lia | by compute |].
    by exists s'.
  - intros i Hi Hint.
    destruct (InsertAt_list s xs v i) as (s' & Hrun & Hlist' & Hlen & _); [done | lia | done |].
    destruct (Z.eqb_spec i 1) as [|_]; [lia|].
    exists s'. split_and!; [done..|].
    intros Hfit. by rewrite Hlen, Int32_wrap_in_range.
Qed.

Lemma InsertAt_length_witness :
  is_list list_123 [1; 2; 3] ∧
  Int32.in_range (length (this list_123) + 1) ∧
  (∃ s', InsertAt 9 1 list_123 = Done (tt, s') ∧
         is_list s' [9; 1; 2; 3] ∧
         length (this s') = 3) ∧
  (∃ s', InsertAt 9 4 list_123 = Done (tt, s') ∧
         length (this s') = 4).
Proof.
  assert (Int32.in_range 4) as Hfit
    by (unfold Int32.in_range, Int32.min_signed, Int32.max_signed; lia).
  split; [exact list_123_is_list|]. split; [exact Hfit|].
  destruct (InsertAt_length list_123 [1; 2; 3] 9 list_123_is_list) as [Hfront Hrest].
  split; [exact Hfront|].
  destruct (Hrest 4) as (s' & Hrun & _ & Hlen); [simpl; lia | exact Hfit |].
  exists s'. split; [exact Hrun | exact (Hlen Hfit)].
Defined.

(** C6: on a list holding the sequence [xs], for every 1-based index [i]
    with [1 <= i <= length xs] (so the list is not empty), [Delete i]
    returns, and a traversal then yields [xs] without its element at
    position [i]. *)
Theorem Delete_spec s xs i :
  is_list s xs →
  1 ≤ i ≤ Z.of_nat (List.length xs) →
  Int32.in_range i →
  ∃ s', Delete i s = Done (tt, s') ∧
        is_list s' (remove_at i xs) ∧
        traversal s' (remove_at i xs).
Proof.
  intros Hlist Hi Hint.
  destruct (Delete_list s xs i) as (s' & Hrun & Hlist' & _); [done..|].
  exists s'. split_and!; [done | done | by apply is_list_traversal].
Qed.

Lemma Delete_spec_witness :
  is_list list_1923 [1; 9; 2; 3] ∧
  1 ≤ 2 ≤ Z.of_nat (List.length [1; 9; 2; 3]) ∧
  Int32.in_range 2 ∧
  ∃ s', Delete 2 list_1923 = Done (tt, s') ∧
        is_list s' [1; 2; 3] ∧
        traversal s' [1; 2; 3].
Proof.
  assert (Int32.in_range 2) as Hint
    by (unfold Int32.in_range, Int32.min_signed, Int32.max_signed; lia).
  assert (1 ≤ 2 ≤ Z.of_nat (List.length [1; 9; 2; 3])) as Hi by (simpl; lia).
  exact (conj list_1923_is_list (conj Hi (conj Hint
           (Delete_spec list_1923 [1; 9; 2; 3] 2 list_1923_is_list Hi Hint)))).
Defined.

(** C4: on every list that is not empty, [Delete 1] removes the first node
    and leaves the [length] field as it was, whereas for every index [i]
    with [2 <= i <= length xs], [Delete i] decrements the [length] field, as
    an [int]: by exactly one whenever [length - 1] is an [int]. *)
Theorem Delete_length s x xs :
  is_list s (x :: xs) →
  (∃ s', Delete 1 s = Done (tt, s') ∧
         is_list s' xs ∧
         length (this s') = length (this s)) ∧
  (∀ i, 2 ≤ i ≤ Z.of_nat (List.length (x :: xs)) →
        Int32.in_range i →
        ∃ s', Delete i s = Done (tt, s') ∧
              length (this s') = Int32.wrap (length (this s) - 1) ∧
              (Int32.in_range (length (this s) - 1) →
               length (this s') = length (this s) - 1)).
Proof.
  intros Hlist. split.
  - destruct (Delete_list s (x :: xs) 1) as (s' & Hrun & Hlist' & Hlen & _);
      [done | simpl; lia | by compute |].
    by exists s'.
  - intros i Hi Hint.
    destruct (Delete_list s (x :: xs) i) as (s' & Hrun & Hlist' & Hlen & _);
      [done | lia | done |].
    destruct (Z.eqb_spec i 1) as [|_]; [lia|].
    exists s'. split_and!; [done..|].
    intros Hfit. by rewrite Hlen, Int32_wrap_in_range.
Qed.

Lemma Delete_length_witness :
  is_list list_123 [1; 2; 3] ∧
  Int32.in_range (length (this list_123) - 1) ∧
  (∃ s', Delete 1 list_123 = Done (tt, s') ∧
         is_list s' [2; 3] ∧
         length (this s') = 3) ∧
  (∃ s', Delete 3 list_123 = Done (tt, s') ∧
         length (this s') = 2).
Proof.
  assert (Int32.in_range 2) as Hfit
    by (unfold Int32.in_range, Int32.min_signed, Int32.max_signed; lia).
  assert (Int32.in_range 3) as Hint
    by (unfold Int32.in_range, Int32.min_signed, Int32.max_signed; lia).
  split; [exact list_123_is_list|]. split; [exact Hfit|].
  destruct (Delete_length list_123 1 [2; 3] list_123_is_list) as [Hfront Hrest].
  split; [exact Hfront|].
  destruct (Hrest 3) as (s' & Hrun & _ & Hlen); [simpl; lia | exact Hint |].
  exists s'. split; [exact Hrun | exact (Hlen Hfit)].
Defined.

(** [Reverse] on a list: the run, the reversed chain and the frame. *)
Lemma Reverse_list s cs fuel :
  seg (heap s) (head (this s)) cs nullptr →
  (List.length cs < fuel)%nat →
  ∃ s', Reverse fuel s = Done (tt, s') ∧
        seg (heap s') (head (this s')) (reverse cs) nullptr ∧
        length (this s') = length (this s) ∧
        cout s' = cout s ∧
        (∀ l, l ∉ cs.*1 → heap s' !! l = heap s !! l) ∧
        (∀ l, data <$> heap s' !! l = data <$> heap s !! l).
Proof.
  intros Hseg Hf.
  destruct (Reverse_exec s fuel cs) as (h' & p' & Hrun & Hseg' & Hframe & Hdata); [done..|].
  eexists. split; [exact Hrun|]. by norm_state.
Qed.

(** Reversing the reversed list gives back the state it started from:
    every cell has its old successor again. *)
Lemma Reverse_Reverse s cs fuel1 fuel2 :
  seg (heap s) (head (this s)) cs nullptr →
  (List.length cs < fuel1)%nat →
  (List.length cs < fuel2)%nat →
  ∃ s', Reverse fuel1 s = Done (tt, s') ∧
        seg (heap s') (head (this s')) (reverse cs) nullptr ∧
        Reverse fuel2 s' = Done (tt, s).
Proof.
  intros Hseg Hf1 Hf2.
  destruct (Reverse_list s cs fuel1) as (s1 & Hrun1 & Hseg1 & Hlen1 & Hout1 & Hframe1 & _);
    [done..|].
  destruct (Reverse_list s1 (reverse cs) fuel2)
    as (s2 & Hrun2 & Hseg2 & Hlen2 & Hout2 & Hframe2 & _);
    [done | by rewrite length_reverse |].
  exists s1. split_and!; [done..|].
  rewrite Hrun2. do 2 f_equal. rewrite reverse_involutive in Hseg2.
  assert (heap s2 = heap s) as Hheap.
  { apply map_eq. intros l. destruct (decide (l ∈ cs.*1)) as [Hin|Hout].
    - by eapply seg_cells_agree.
    - rewrite Hframe2, Hframe1; [done..|].
      by rewrite fmap_reverse, elem_of_reverse. }
  assert (head (this s2) = head (this s)) as Hhead.
  { apply seg_first in Hseg, Hseg2. congruence. }
  destruct s as [h [n p] o], s2 as [h2 [n2 p2] o2]. simpl in *. congruence.
Qed.

(** C7: [Reverse] is an involution: on every list, calling it twice gives
    back the state it started from, so a traversal yields the original
    sequence again; on the empty list already one call changes nothing. *)
Theorem Reverse_involution s xs fuel1 fuel2 :
  is_list s xs →
  (List.length xs < fuel1)%nat →
  (List.length xs < fuel2)%nat →
  ∃ s' s'', Reverse fuel1 s = Done (tt, s') ∧
            is_list s' (reverse xs) ∧
            Reverse fuel2 s' = Done (tt, s'') ∧
            is_list s'' xs ∧
            traversal s'' xs ∧
            s'' = s ∧
            (xs = [] → s' = s).
Proof.
  intros Hlist Hf1 Hf2. pose proof Hlist as (cs & Hseg & <-).
  rewrite length_fmap in Hf1, Hf2.
  destruct (Reverse_Reverse s cs fuel1 fuel2) as (s' & Hrun1 & Hseg' & Hrun2); [done..|].
  exists s', s. split_and!; [done| |done|done|by apply is_list_traversal|done|].
  - exists (reverse cs). by rewrite fmap_reverse.
  - intros ->%fmap_nil_inv.
    destruct fuel1; [simpl in Hf1; lia|].
    apply seg_first in Hseg. destruct s as [h [n p] o]. simpl in Hseg. subst p.
    by injection Hrun1 as <-.
Qed.

Lemma Reverse_involution_witness :
  is_list list_123 [1; 2; 3] ∧
  ∃ s' s'', Reverse 4 list_123 = Done (tt, s') ∧
            is_list s' [3; 2; 1] ∧
            Reverse 5 s' = Done (tt, s'') ∧
            is_list s'' [1; 2; 3] ∧
            traversal s'' [1; 2; 3] ∧
            s'' = list_123 ∧
            ([1; 2; 3] = [] → s' = list_123).
Proof.
  split; [exact list_123_is_list|].
  apply (Reverse_involution list_123 [1; 2; 3] 4 5);
    [exact list_123_is_list | simpl; lia | simpl; lia].
Defined.

Example Reverse_empty : Reverse 1 empty_state = Done (tt, empty_state).
Proof. reflexivity. Qed.

(** C10: on every list, [Reverse] returns and leaves the [length] field as
    it was; the sequence the list then holds is a permutation of the one it
    held (the same values, as often); the heap has the same cells with the
    same [data], cells outside the list are untouched: only [next] links of
    the list's nodes are rewritten. *)
Theorem Reverse_frame s xs fuel :
  is_list s xs →
  (List.length xs < fuel)%nat →
  ∃ s' xs', Reverse fuel s = Done (tt, s') ∧
            length (this s') = length (this s) ∧
            is_list s' xs' ∧
            xs' ≡ₚ xs ∧
            (∀ l, data <$> heap s' !! l = data <$> heap s !! l) ∧
            cout s' = cout s.
Proof.
  intros (cs & Hseg & <-) Hf. rewrite length_fmap in Hf.
  destruct (Reverse_list s cs fuel) as (s' & Hrun & Hseg' & Hlen & Hout & _ & Hdata);
    [done..|].
  exists s', (reverse cs.*2). split_and!; [done | done | | | done | done].
  - exists (reverse cs). by rewrite fmap_reverse.
  - apply reverse_Permutation.
Qed.

Lemma Reverse_frame_witness :
  is_list list_123 [1; 2; 3] ∧ (List.length [1; 2; 3] < 4)%nat ∧
  ∃ s' xs', Reverse 4 list_123 = Done (tt, s') ∧
            length (this s') = length (this list_123) ∧
            is_list s' xs' ∧
            xs' ≡ₚ [1; 2; 3] ∧
            (∀ l, data <$> heap s' !! l = data <$> heap list_123 !! l) ∧
            cout s' = cout list_123.
Proof.
  assert (List.length [1; 2; 3] < 4)%nat as Hf by (simpl; lia).
  exact (conj list_123_is_list (conj Hf
           (Reverse_frame list_123 [1; 2; 3] 4 list_123_is_list Hf))).
Defined.

(** ** The [length] field against the number of nodes *)

(** C1: the sequence of one valid operation [InsertAt 5 1] on the empty
    list leaves [GetLength] at 0 while the traversal yields one element:
    the branch for [index == 1] returns before [this->length++]. *)
Theorem GetLength_out_of_step :
  ∃ s', InsertAt 5 1 empty_state = Done (tt, s') ∧
        GetLength s' = Done (0, s') ∧
        is_list s' [5] ∧
        Print 2 s' = Done (tt, with_cout "5 " s').
Proof.
  eexists. split; [vm_compute; reflexivity|]. split_and!; [done| |done].
  exists [(1%positive, 5)]. split; [|done]. repeat econstructor.
Qed.

(** The same happens on the way down: [Delete 1] returns before
    [this->length--]. *)
Example GetLength_out_of_step_Delete :
  ∃ s1 s2, InsertFront 5 empty_state = Done (tt, s1) ∧
           Delete 1 s1 = Done (tt, s2) ∧
           GetLength s2 = Done (1, s2) ∧
           is_list s2 [].
Proof.
  do 2 eexists. split; [vm_compute; reflexivity|].
  split; [vm_compute; reflexivity|]. split; [done|]. by apply is_list_nil.
Qed.

(** ** Indices out of range *)

(** C2 fails: on the list 1, 2, 3 the index 0 is outside [1, 4], yet
    [InsertAt 9 0] returns normally, having put 9 in second place and
    incremented [length]: the traversal and the counter both change. *)
Lemma InsertAt_index_0_not_rejected :
  is_list list_123 [1; 2; 3] ∧
  length (this list_123) = 3 ∧
  ¬ (1 ≤ 0 ≤ length (this list_123) + 1) ∧
  Print 4 list_123 = Done (tt, with_cout "1 2 3 " list_123) ∧
  InsertAt 9 0 list_123 = Done (tt, list_1923) ∧
  is_list list_1923 [1; 9; 2; 3] ∧
  length (this list_1923) = 4 ∧
  Print 5 list_1923 = Done (tt, with_cout "1 9 2 3 " list_1923).
Proof.
  split_and!; [exact list_123_is_list | done | simpl; lia | by vm_compute
              | by vm_compute | exact list_1923_is_list | done | by vm_compute].
Qed.

(** C2, as the code has it.  There is no [IndexOutOfRange] error and no
    check of [index].  With [n] the number of nodes: [InsertAt] with
    [index > n + 1] and [Delete] with [index > n], and every [Delete] on
    the empty list, dereference [nullptr]; with [index < 1] the loop runs
    no time, so [InsertAt] puts the value in second place and increments
    [length] when the list is not empty, [Delete] removes the second
    element and decrements [length] when there are two nodes or more, and
    both dereference [nullptr] on shorter lists. *)
Theorem out_of_range_behaviour s xs v i :
  is_list s xs →
  Int32.in_range i →
  (Z.of_nat (List.length xs) + 1 < i → InsertAt v i s = Undefined) ∧
  (Z.of_nat (List.length xs) < i → Delete i s = Undefined) ∧
  (xs = [] → Delete i s = Undefined) ∧
  (Int32.min_signed + 2 ≤ i < 1 →
     match xs with
     | [] => InsertAt v i s = Undefined
     | x :: xs' =>
         ∃ s', InsertAt v i s = Done (tt, s') ∧
               is_list s' (x :: v :: xs') ∧
               length (this s') = Int32.wrap (length (this s) + 1)
     end ∧
     match xs with
     | x :: _ :: xs' =>
         ∃ s', Delete i s = Done (tt, s') ∧
               is_list s' (x :: xs') ∧
               length (this s') = Int32.wrap (length (this s) - 1)
     | _ => Delete i s = Undefined
     end).
Proof.
  intros (cs & Hseg & <-) Hint. rewrite length_fmap.
  assert (∀ j, Int32.in_range j → 2 ≤ j → Int32.wrap (j - 2) = j - 2) as Hwrap.
  { intros j Hj ?. apply Int32_wrap_in_range.
    unfold Int32.in_range, Int32.min_signed, Int32.max_signed in *. lia. }
  split_and!.
  - intros Hi. eapply InsertAt_overrun; [lia | done |]. rewrite Hwrap; [lia | done | lia].
  - intros Hi. destruct (decide (i = 1)) as [->|Hne].
    + destruct cs; [|simpl in Hi; lia]. apply Delete_front_empty. by inversion Hseg.
    + eapply Delete_overrun; [done | done |]. rewrite Hwrap; [lia | done | lia].
  - intros ->%fmap_nil_inv. destruct (decide (i = 1)) as [->|Hne].
    + apply Delete_front_empty. by inversion Hseg.
    + eapply Delete_overrun; [done | done |]. simpl. lia.
  - intros Hi.
    assert (Z.to_nat (Int32.wrap (i - 2)) = 0%nat) as Hcount.
    { rewrite Int32_wrap_in_range; [lia|].
      unfold Int32.in_range, Int32.min_signed, Int32.max_signed in *. lia. }
    split.
    + destruct cs as [|[l0 x0] cs]; simpl.
      * eapply InsertAt_overrun; [lia | done |]. simpl. lia.
      * destruct (InsertAt_after s v i [] l0 x0 cs) as (s' & Hrun & Hseg' & Hlen & _);
          [lia | done | by rewrite Hcount |].
        exists s'. split_and!; [done | | done]. by eexists.
    + destruct cs as [|[l0 x0] [|[l1 x1] cs]]; simpl.
      * eapply Delete_overrun; [lia | done |]. simpl. lia.
      * eapply Delete_overrun; [lia | done |]. simpl. lia.
      * destruct (Delete_after s i [] l0 x0 l1 x1 cs) as (s' & Hrun & Hseg' & Hlen & _);
          [lia | done | by rewrite Hcount |].
        exists s'. split_and!; [done | | done]. by eexists.
Qed.

Lemma out_of_range_behaviour_witness :
  is_list list_123 [1; 2; 3] ∧
  Int32.in_range 0 ∧
  (∃ s', InsertAt 9 0 list_123 = Done (tt, s') ∧
         is_list s' [1; 9; 2; 3] ∧
         length (this s') = Int32.wrap (3 + 1)) ∧
  (∃ s', Delete 0 list_123 = Done (tt, s') ∧
         is_list s' [1; 3] ∧
         length (this s') = Int32.wrap (3 - 1)).
Proof.
  assert (Int32.in_range 0) as Hint
    by (unfold Int32.in_range, Int32.min_signed, Int32.max_signed; lia).
  split; [exact list_123_is_list|]. split; [exact Hint|].
  destruct (out_of_range_behaviour list_123 [1; 2; 3] 9 0 list_123_is_list Hint)
    as (_ & _ & _ & Hlow).
  apply Hlow. unfold Int32.min_signed. lia.
Defined.

Example out_of_range_above :
  InsertAt 9 5 list_123 = Undefined ∧
  Delete 4 list_123 = Undefined ∧
  Delete 1 empty_state = Undefined ∧
  InsertAt 9 2 empty_state = Undefined.
Proof. by vm_compute. Qed.

(** ** Where the counter stays in step *)

Lemma InsertBack_list s xs v fuel :
  is_list s xs →
  (List.length xs ≤ fuel)%nat →
  ∃ s', InsertBack fuel v s = Done (tt, s') ∧
        is_list s' (xs ++ [v]) ∧
        length (this s') = Int32.wrap (length (this s) + 1) ∧
        cout s' = cout s.
Proof.
  intros (cs & Hseg & <-) Hf. rewrite length_fmap in Hf.
  destruct cs as [|[l0 x0] cs _] using rev_ind.
  - apply seg_first in Hseg. simpl in Hseg.
    eexists. split; [by apply InsertBack_empty_exec|].
    split_and!; [|done..].
    exists [(fresh (dom (heap s)), v)]. split; [|done]. norm_state.
    econstructor; [apply lookup_insert_eq | constructor].
  - rewrite length_app in Hf. simpl in Hf.
    pose proof (seg_NoDup _ _ _ Hseg) as Hnd.
    pose proof (seg_fresh _ _ _ _ Hseg) as Hfresh.
    rewrite fmap_app in Hnd, Hfresh. simpl in Hnd, Hfresh.
    apply NoDup_app in Hnd as (_ & Hl0 & _).
    apply not_elem_of_app in Hfresh as [Hf1 [Hf0 _]%not_elem_of_cons].
    eexists. split; [eapply InsertBack_exec; [done | lia]|].
    split_and!; [|done..].
    exists ((cs ++ [(l0, x0)]) ++ [(fresh (dom (heap s)), v)]).
    split; [|by rewrite !fmap_app]. norm_state.
    apply seg_snoc in Hseg as [Hseg Hl].
    apply seg_snoc. split; [|by rewrite lookup_insert_ne, lookup_insert_eq].
    apply seg_snoc. split; [|by rewrite lookup_insert_eq].
    apply seg_insert; [|by apply seg_insert].
    intros Hin. apply (Hl0 l0); [done | by left].
Qed.

(** Every method keeps [GetLength] equal to the number of elements the
    traversal yields, except on the two paths for index 1. *)
Lemma in_step_preserved s xs :
  in_step s xs →
  Z.of_nat (List.length xs) < Int32.max_signed →
  (∀ v, ∃ s', InsertFront v s = Done (tt, s') ∧ in_step s' (v :: xs)) ∧
  (∀ v fuel, (List.length xs ≤ fuel)%nat →
     ∃ s', InsertBack fuel v s = Done (tt, s') ∧ in_step s' (xs ++ [v])) ∧
  (∀ v i, 2 ≤ i ≤ Z.of_nat (List.length xs) + 1 →
     ∃ s', InsertAt v i s = Done (tt, s') ∧ in_step s' (insert_at i v xs)) ∧
  (∀ i, 2 ≤ i ≤ Z.of_nat (List.length xs) →
     ∃ s', Delete i s = Done (tt, s') ∧ in_step s' (remove_at i xs)) ∧
  (∀ fuel, (List.length xs < fuel)%nat →
     ∃ s', Reverse fuel s = Done (tt, s') ∧ in_step s' (reverse xs)).
Proof.
  intros [Hlist Hlen] Hmax.
  assert (∀ j, 0 ≤ j ≤ Z.of_nat (List.length xs) + 1 → Int32.in_range j) as Hfit.
  { intros j Hj. unfold Int32.in_range, Int32.min_signed, Int32.max_signed in *. lia. }
  split_and!.
  - intros v. pose proof Hlist as (cs & Hseg & <-).
    eexists. split; [apply InsertFront_exec|]. split.
    + eexists. split; [by apply seg_push | done].
    + norm_state. rewrite Hlen, Int32_wrap_in_range by (apply Hfit; lia).
      simpl. lia.
  - intros v fuel Hf.
    destruct (InsertBack_list s xs v fuel) as (s' & Hrun & Hlist' & Hlen' & _); [done..|].
    exists s'. split; [done|]. split; [done|].
    rewrite Hlen', Hlen, Int32_wrap_in_range by (apply Hfit; lia).
    rewrite length_app. simpl. lia.
  - intros v i Hi.
    destruct (InsertAt_list s xs v i) as (s' & Hrun & Hlist' & Hlen' & _);
      [done | lia | apply Hfit; lia |].
    destruct (Z.eqb_spec i 1) as [|_]; [lia|].
    exists s'. split; [done|]. split; [done|].
    rewrite Hlen', Hlen, Int32_wrap_in_range by (apply Hfit; lia).
    unfold insert_at. rewrite length_app. simpl.
    rewrite length_take, length_drop. lia.
  - intros i Hi.
    destruct (Delete_list s xs i) as (s' & Hrun & Hlist' & Hlen' & _);
      [done | lia | apply Hfit; lia |].
    destruct (Z.eqb_spec i 1) as [|_]; [lia|].
    exists s'. split; [done|]. split; [done|].
    rewrite Hlen', Hlen, Int32_wrap_in_range by (apply Hfit; lia).
    unfold remove_at. rewrite length_app, length_take, length_drop. lia.
  - intros fuel Hf. pose proof Hlist as (cs & Hseg & <-).
    rewrite length_fmap in Hf.
    destruct (Reverse_list s cs fuel) as (s' & Hrun & Hseg' & Hlen' & _); [done..|].
    exists s'. split; [done|]. split.
    + exists (reverse cs). by rewrite fmap_reverse.
    + by rewrite Hlen', Hlen, length_reverse.
Qed.

(** ** More on the methods *)

(** X1: on every list, the empty one included, [InsertBack v] returns; a
    traversal then yields the prior sequence followed by [v]; the [length]
    field is incremented as an [int], by exactly one whenever [length + 1]
    is an [int]; nothing is written to [std::cout]. *)
Theorem InsertBack_spec s xs v fuel :
  is_list s xs →
  (List.length xs ≤ fuel)%nat →
  ∃ s', InsertBack fuel v s = Done (tt, s') ∧
        is_list s' (xs ++ [v]) ∧
        traversal s' (xs ++ [v]) ∧
        length (this s') = Int32.wrap (length (this s) + 1) ∧
        (Int32.in_range (length (this s) + 1) →
         length (this s') = length (this s) + 1) ∧
        cout s' = cout s.
Proof.
  intros Hlist Hf.
  destruct (InsertBack_list s xs v fuel) as (s' & Hrun & Hlist' & Hlen & Hout); [done..|].
  exists s'. split_and!; [done | done | by apply is_list_traversal | done | | done].
  intros Hfit. by rewrite Hlen, Int32_wrap_in_range.
Qed.

Lemma InsertBack_spec_witness :
  is_list list_123 [1; 2; 3] ∧
  (List.length [1; 2; 3] ≤ 3)%nat ∧
  Int32.in_range (length (this list_123) + 1) ∧
  ∃ s', InsertBack 3 7 list_123 = Done (tt, s') ∧
        is_list s' [1; 2; 3; 7] ∧
        traversal s' [1; 2; 3; 7] ∧
        length (this s') = 4 ∧
        cout s' = cout list_123.
Proof.
  assert (Int32.in_range (length (this list_123) + 1)) as Hfit
    by (unfold Int32.in_range, Int32.min_signed, Int32.max_signed; simpl; lia).
  assert (List.length [1; 2; 3] ≤ 3)%nat as Hf by (simpl; lia).
  split; [exact list_123_is_list|]. split; [exact Hf|]. split; [exact Hfit|].
  destruct (InsertBack_spec list_123 [1; 2; 3] 7 3 list_123_is_list Hf)
    as (s' & Hrun & Hlist & Htrav & _ & Hlen & Hout).
  exists s'. split; [exact Hrun|]. split; [exact Hlist|]. split; [exact Htrav|].
  split; [exact (Hlen Hfit) | exact Hout].
Defined.

(** X2: on every list, [Reverse] returns and a traversal then yields the
    prior sequence in the opposite order, last element first. *)
Theorem Reverse_spec s xs fuel :
  is_list s xs →
  (List.length xs < fuel)%nat →
  ∃ s', Reverse fuel s = Done (tt, s') ∧
        is_list s' (reverse xs) ∧
        traversal s' (reverse xs).
Proof.
  intros (cs & Hseg & <-) Hf. rewrite length_fmap in Hf.
  destruct (Reverse_list s cs fuel) as (s' & Hrun & Hseg' & _); [done..|].
  assert (is_list s' (reverse cs.*2)) as Hlist.
  { exists (reverse cs). by rewrite fmap_reverse. }
  exists s'. split_and!; [done | done | by apply is_list_traversal].
Qed.

Lemma Reverse_spec_witness :
  is_list list_1923 [1; 9; 2; 3] ∧
  (List.length [1; 9; 2; 3] < 5)%nat ∧
  ∃ s', Reverse 5 list_1923 = Done (tt, s') ∧
        is_list s' [3; 2; 9; 1] ∧
        traversal s' [3; 2; 9; 1].
Proof.
  assert (List.length [1; 9; 2; 3] < 5)%nat as Hf by (simpl; lia).
  exact (conj list_1923_is_list (conj Hf
           (Reverse_spec list_1923 [1; 9; 2; 3] 5 list_1923_is_list Hf))).
Defined.

(** *** Insertion undone by deletion *)

Lemma fresh_lookup (h : gmap loc Node) : h !! fresh (dom h) = None.
Proof. apply not_elem_of_dom, is_fresh. Qed.

Lemma Int32_wrap_succ_pred n :
  Int32.in_range n → Int32.wrap (Int32.wrap (n + 1) - 1) = n.
Proof.
  intros Hn. destruct (decide (n = Int32.max_signed)) as [->|Hne]; [done|].
  rewrite (Int32_wrap_in_range (n + 1)).
  - replace (n + 1 - 1) with n by lia. by apply Int32_wrap_in_range.
  - unfold Int32.in_range, Int32.min_signed, Int32.max_signed in *. lia.
Qed.

(** X3: [InsertFront v] followed by [Delete 1] returns on every state and
    gives back the heap, [head] and the output as they were, but the
    [length] field is one higher (as an [int]): the insertion counted, the
    deletion at index 1 did not. *)
Theorem InsertFront_Delete_front s v :
  ∃ s', InsertFront v s = Done (tt, s') ∧
        Delete 1 s' =
          Done (tt, {| heap := heap s;
                       this := {| length := Int32.wrap (length (this s) + 1);
                                  head := head (this s) |};
                       cout := cout s |}).
Proof.
  eexists. split; [apply InsertFront_exec|].
  erewrite Delete_front_exec;
    [| norm_state; reflexivity | norm_state; apply lookup_insert_eq].
  norm_state. by rewrite delete_insert_id by apply fresh_lookup.
Qed.

(** X4: on every list, for every index [i] with [1 <= i <= length xs + 1],
    [InsertAt v i] followed by [Delete i] gives back the state it started
    from: the heap, [head], the output and the [length] field (both calls
    skip the counter at index 1, both move it otherwise). *)
Theorem InsertAt_Delete_roundtrip s xs v i :
  is_list s xs →
  1 ≤ i ≤ Z.of_nat (List.length xs) + 1 →
  Int32.in_range i →
  Int32.in_range (length (this s)) →
  ∃ s', InsertAt v i s = Done (tt, s') ∧ Delete i s' = Done (tt, s).
Proof.
  intros (cs & Hseg & <-) Hi Hint Hlen. rewrite length_fmap in Hi.
  destruct (decide (i = 1)) as [->|Hne].
  - eexists. split; [apply InsertAt_front_exec|].
    erewrite Delete_front_exec;
      [| norm_state; reflexivity | norm_state; apply lookup_insert_eq].
    norm_state. rewrite delete_insert_id by apply fresh_lookup.
    by destruct s as [h [n p] o].
  - destruct (split_at cs (Z.to_nat (i - 2))) as (cs1 & [l0 x0] & cs2 & -> & Hcount); [lia|].
    assert (List.length cs1 = Z.to_nat (Int32.wrap (i - 2))) as Hcount'.
    { rewrite Int32_wrap_in_range; [done|].
      unfold Int32.in_range, Int32.min_signed, Int32.max_signed in *. lia. }
    pose proof (seg_NoDup _ _ _ Hseg) as Hnd.
    pose proof (seg_fresh _ _ _ _ Hseg) as Hfresh.
    rewrite fmap_app, fmap_cons in Hnd, Hfresh. simpl in Hnd, Hfresh.
    apply NoDup_app in Hnd as (_ & Hl0_cs1 & _).
    apply not_elem_of_app in Hfresh as [Hf1 [Hf0 _]%not_elem_of_cons].
    apply seg_app in Hseg as (q & Hseg1 & Hseg2).
    inversion Hseg2 as [|? ? q2 ? ? Hl0 Hq2]; subst.
    eexists. split; [by eapply InsertAt_exec|].
    erewrite (Delete_exec _ i cs1 l0 _ (fresh (dom (heap s)))); norm_state;
      [| done
       | apply seg_insert; [|by apply seg_insert];
         intros Hin; by apply (Hl0_cs1 l0); [|left]
       | done
       | apply lookup_insert_eq
       | reflexivity
       | by rewrite lookup_insert_ne, lookup_insert_eq
       | done ].
    rewrite insert_insert_eq, delete_insert_ne by done.
    rewrite delete_insert_id by apply fresh_lookup.
    rewrite insert_id by done. rewrite Int32_wrap_succ_pred by done.
    by destruct s as [h [n p] o].
Qed.

Lemma InsertAt_Delete_roundtrip_witness :
  is_list list_123 [1; 2; 3] ∧
  1 ≤ 2 ≤ Z.of_nat (List.length [1; 2; 3]) + 1 ∧
  Int32.in_range 2 ∧
  Int32.in_range (length (this list_123)) ∧
  ∃ s', InsertAt 9 2 list_123 = Done (tt, s') ∧ Delete 2 s' = Done (tt, list_123).
Proof.
  assert (Int32.in_range 2) as Hint
    by (unfold Int32.in_range, Int32.min_signed, Int32.max_signed; lia).
  assert (Int32.in_range (length (this list_123))) as Hlen
    by (unfold Int32.in_range, Int32.min_signed, Int32.max_signed; simpl; lia).
  assert (1 ≤ 2 ≤ Z.of_nat (List.length [1; 2; 3]) + 1) as Hi by (simpl; lia).
  exact (conj list_123_is_list (conj Hi (conj Hint (conj Hlen
           (InsertAt_Delete_roundtrip list_123 [1; 2; 3] 9 2
              list_123_is_list Hi Hint Hlen))))).
Defined.

(** X5: on a list that is not empty, [InsertAt v (length xs + 1)] and
    [InsertBack v] return the same state: the value is appended and the
    [length] field incremented by either. *)
Theorem InsertAt_end_is_InsertBack s xs v fuel :
  is_list s xs →
  xs ≠ [] →
  Int32.in_range (Z.of_nat (List.length xs) + 1) →
  (List.length xs ≤ fuel)%nat →
  ∃ s', InsertAt v (Z.of_nat (List.length xs) + 1) s = Done (tt, s') ∧
        InsertBack fuel v s = Done (tt, s') ∧
        is_list s' (xs ++ [v]).
Proof.
  intros Hlist Hne Hint Hf.
  destruct (InsertBack_list s xs v fuel) as (s' & Hrun & Hlist' & _); [done..|].
  exists s'. split_and!; [|done..].
  rewrite <-Hrun. destruct Hlist as (cs & Hseg & <-). rewrite length_fmap in *.
  destruct cs as [|[l0 x0] cs _] using rev_ind; [done|].
  rewrite length_app in *. simpl in *.
  pose proof Hseg as [Hseg0 Hl0]%seg_snoc.
  erewrite (InsertAt_exec _ _ _ cs l0); [| lia | done | | done].
  - by erewrite InsertBack_exec by (done || lia).
  - rewrite Int32_wrap_in_range; [lia|].
    unfold Int32.in_range, Int32.min_signed, Int32.max_signed in *. lia.
Qed.

Lemma InsertAt_end_is_InsertBack_witness :
  is_list list_123 [1; 2; 3] ∧
  [1; 2; 3] ≠ [] ∧
  Int32.in_range (Z.of_nat (List.length [1; 2; 3]) + 1) ∧
  (List.length [1; 2; 3] ≤ 3)%nat ∧
  ∃ s', InsertAt 7 (Z.of_nat (List.length [1; 2; 3]) + 1) list_123 = Done (tt, s') ∧
        InsertBack 3 7 list_123 = Done (tt, s') ∧
        is_list s' [1; 2; 3; 7].
Proof.
  assert (Int32.in_range (Z.of_nat (List.length [1; 2; 3]) + 1)) as Hint
    by (unfold Int32.in_range, Int32.min_signed, Int32.max_signed; simpl; lia).
  assert (List.length [1; 2; 3] ≤ 3)%nat as Hf by (simpl; lia).
  assert ([1; 2; 3] ≠ []) as Hne by discriminate.
  exact (conj list_123_is_list (conj Hne (conj Hint (conj Hf
           (InsertAt_end_is_InsertBack list_123 [1; 2; 3] 7 3
              list_123_is_list Hne Hint Hf))))).
Defined.

(** ** Sequences of calls against sequences of values *)

Lemma length_model_call c xs :
  (List.length (model_call c xs) ≤ S (List.length xs))%nat.
Proof.
  destruct c; simpl; try lia.
  - rewrite length_app. simpl. lia.
  - unfold insert_at. rewrite length_app. simpl. rewrite length_take, length_drop. lia.
  - unfold remove_at. rewrite length_app, length_take, length_drop. lia.
  - rewrite length_reverse. lia.
Qed.

(** One valid call, with fuel for the list as it is. *)
Lemma run_call_refines s xs c fuel :
  is_list s xs →
  valid_call c xs →
  (List.length xs < fuel)%nat →
  ∃ s', run_call fuel c s = Done (tt, s') ∧
        is_list s' (model_call c xs) ∧
        cout s' = cout s +:+ model_output c xs ∧
        length (this s') = model_length c (length (this s)).
Proof.
  intros Hlist Hvalid Hf. destruct c as [v|v|v i|i| | | |]; simpl in *.
  - pose proof Hlist as (cs & Hseg & <-).
    eexists. split; [apply InsertFront_exec|]. norm_state.
    split_and!; [|by rewrite append_nil_r|done].
    eexists. split; [by apply seg_push | done].
  - destruct (InsertBack_list s xs v fuel) as (s' & Hrun & Hlist' & Hlen & Hout);
      [done | lia |].
    exists s'. by rewrite append_nil_r.
  - destruct Hvalid as [Hi Hint].
    destruct (InsertAt_list s xs v i) as (s' & Hrun & Hlist' & Hlen & Hout); [done..|].
    exists s'. by rewrite append_nil_r.
  - destruct Hvalid as [Hi Hint].
    destruct (Delete_list s xs i) as (s' & Hrun & Hlist' & Hlen & Hout); [done..|].
    exists s'. by rewrite append_nil_r.
  - pose proof Hlist as (cs & Hseg & <-). rewrite length_fmap in Hf.
    destruct (Reverse_list s cs fuel) as (s' & Hrun & Hseg' & Hlen & Hout & _); [done..|].
    exists s'. rewrite append_nil_r. split_and!; [done| |done..].
    exists (reverse cs). by rewrite fmap_reverse.
  - pose proof Hlist as (cs & Hseg & <-). rewrite length_fmap in Hf.
    eexists. split; [unfold Print; step; by apply Print_loop_seg|].
    split_and!; [by exists cs | done..].
  - pose proof Hlist as (cs & Hseg & <-). rewrite length_fmap in Hf.
    eexists. split; [unfold PrintRecursion; step; by apply StartRecursionPrint_seg|].
    split_and!; [by exists cs | done..].
  - exists s. by rewrite append_nil_r.
Qed.

(** X6: the list refines the sequence it holds.  On a list holding [xs],
    every sequence of calls whose indices are in range returns (given fuel
    for the longest list on the way); the list then holds what the calls
    make of [xs] as a sequence, [std::cout] has received what the
    traversals among them print, and the [length] field is what the calls
    make of it: one up (as an [int]) for every insertion, one down for
    every deletion, except those at index 1. *)
Theorem calls_refine s xs calls fuel :
  is_list s xs →
  valid_calls calls xs →
  (List.length xs + List.length calls < fuel)%nat →
  ∃ s', run_calls fuel calls s = Done (tt, s') ∧
        is_list s' (model_calls calls xs) ∧
        cout s' = cout s +:+ model_outputs calls xs ∧
        length (this s') = model_lengths calls (length (this s)).
Proof.
  revert s xs. induction calls as [|c calls IH]; intros s xs Hlist Hvalid Hf; simpl in *.
  - exists s. by rewrite append_nil_r.
  - destruct Hvalid as [Hc Hvalid].
    destruct (run_call_refines s xs c fuel) as (s1 & Hrun1 & Hlist1 & Hout1 & Hlen1);
      [done | done | lia |].
    destruct (IH s1 (model_call c xs)) as (s' & Hrun & Hlist' & Hout & Hlen);
      [done | done | pose proof (length_model_call c xs); lia |].
    exists s'. split_and!; [|done| |].
    + by erewrite bind_Done by exact Hrun1.
    + by rewrite Hout, Hout1, append_assoc.
    + by rewrite Hlen, Hlen1.
Qed.

Lemma calls_refine_witness :
  is_list empty_state [] ∧
  valid_calls [CallInsertFront 1; CallInsertBack 3; CallInsertAt 9 2;
               CallPrint; CallReverse; CallDelete 1; CallPrintRecursion] [] ∧
  (List.length (@nil Z) + 7 < 8)%nat ∧
  ∃ s', run_calls 8 [CallInsertFront 1; CallInsertBack 3; CallInsertAt 9 2;
                     CallPrint; CallReverse; CallDelete 1; CallPrintRecursion]
          empty_state = Done (tt, s') ∧
        is_list s' [9; 1] ∧
        cout s' = "1 9 3 9 1 " ∧
        length (this s') = 3.
Proof.
  assert (is_list empty_state []) as Hlist by (by apply is_list_nil).
  assert (valid_calls [CallInsertFront 1; CallInsertBack 3; CallInsertAt 9 2;
                       CallPrint; CallReverse; CallDelete 1; CallPrintRecursion] [])
    as Hvalid.
  { cbv [valid_calls valid_call model_call insert_at remove_at]. simpl.
    unfold Int32.in_range, Int32.min_signed, Int32.max_signed.
    repeat split; lia. }
  assert (List.length (@nil Z) + 7 < 8)%nat as Hf by (simpl; lia).
  exact (conj Hlist (conj Hvalid (conj Hf
           (calls_refine empty_state [] _ 8 Hlist Hvalid Hf)))).
Defined.

(** One valid call that is not at index 1 keeps the counter in step. *)
Lemma run_call_in_step s xs c fuel :
  in_step s xs →
  valid_call c xs →
  off_front c →
  Z.of_nat (List.length xs) < Int32.max_signed →
  (List.length xs < fuel)%nat →
  ∃ s', run_call fuel c s = Done (tt, s') ∧ in_step s' (model_call c xs).
Proof.
  intros [Hlist Hlen] Hvalid Hoff Hmax Hf.
  destruct (run_call_refines s xs c fuel) as (s' & Hrun & Hlist' & _ & Hlen'); [done..|].
  exists s'. split; [done|]. split; [done|]. rewrite Hlen', Hlen.
  assert (∀ j, 0 ≤ j ≤ Z.of_nat (List.length xs) + 1 → Int32.wrap j = j) as Hwrap.
  { intros j Hj. apply Int32_wrap_in_range.
    unfold Int32.in_range, Int32.min_signed, Int32.max_signed in *. lia. }
  destruct c as [v|v|v i|i| | | |]; simpl in *; try done.
  - rewrite Hwrap; lia.
  - rewrite Hwrap, length_app; simpl; lia.
  - destruct (Z.eqb_spec i 1) as [|_]; [done|].
    unfold insert_at. rewrite Hwrap, length_app by lia. simpl.
    rewrite length_take, length_drop. lia.
  - destruct (Z.eqb_spec i 1) as [|_]; [done|].
    unfold remove_at. rewrite Hwrap, length_app, length_take, length_drop by lia. lia.
  - by rewrite length_reverse.
Qed.

(** X7: as long as no call takes the branch for [index == 1], the counter
    stays in step.  On a list whose [length] field is its number of nodes,
    after every sequence of calls with indices in range and none equal to
    1, the [length] field is again the number of nodes, so [GetLength]
    returns the number of elements a traversal yields. *)
Theorem calls_keep_in_step s xs calls fuel :
  in_step s xs →
  valid_calls calls xs →
  Forall off_front calls →
  Z.of_nat (List.length xs + List.length calls) ≤ Int32.max_signed →
  (List.length xs + List.length calls < fuel)%nat →
  ∃ s', run_calls fuel calls s = Done (tt, s') ∧
        in_step s' (model_calls calls xs) ∧
        GetLength s' = Done (Z.of_nat (List.length (model_calls calls xs)), s').
Proof.
  revert s xs. induction calls as [|c calls IH];
    intros s xs Hstep Hvalid Hoff Hmax Hf; simpl in *.
  - exists s. split_and!; [done..|]. destruct Hstep as [_ Hlen].
    by rewrite GetLength_spec, Hlen.
  - destruct Hvalid as [Hc Hvalid]. apply Forall_cons in Hoff as [Hoffc Hoff].
    destruct (run_call_in_step s xs c fuel) as (s1 & Hrun1 & Hstep1);
      [done | done | done | lia | lia |].
    pose proof (length_model_call c xs) as Hle.
    destruct (IH s1 (model_call c xs)) as (s' & Hrun & Hstep' & Hget);
      [done | done | done | lia | lia |].
    exists s'. split_and!; [|done..].
    by erewrite bind_Done by exact Hrun1.
Qed.

Lemma calls_keep_in_step_witness :
  in_step empty_state [] ∧
  valid_calls [CallInsertFront 1; CallInsertBack 3; CallInsertAt 9 2;
               CallReverse; CallDelete 3] [] ∧
  Forall off_front [CallInsertFront 1; CallInsertBack 3; CallInsertAt 9 2;
                    CallReverse; CallDelete 3] ∧
  Z.of_nat (List.length (@nil Z) + 5) ≤ Int32.max_signed ∧
  (List.length (@nil Z) + 5 < 6)%nat ∧
  ∃ s', run_calls 6 [CallInsertFront 1; CallInsertBack 3; CallInsertAt 9 2;
                     CallReverse; CallDelete 3] empty_state = Done (tt, s') ∧
        in_step s' [3; 9] ∧
        GetLength s' = Done (2, s').
Proof.
  assert (in_step empty_state []) as Hstep by (split; [by apply is_list_nil | done]).
  assert (valid_calls [CallInsertFront 1; CallInsertBack 3; CallInsertAt 9 2;
                       CallReverse; CallDelete 3] []) as Hvalid.
  { cbv [valid_calls valid_call model_call insert_at remove_at]. simpl.
    unfold Int32.in_range, Int32.min_signed, Int32.max_signed.
    repeat split; lia. }
  assert (Forall off_front [CallInsertFront 1; CallInsertBack 3; CallInsertAt 9 2;
                            CallReverse; CallDelete 3]) as Hoff.
  { repeat constructor; simpl; lia. }
  assert (Z.of_nat (List.length (@nil Z) + 5) ≤ Int32.max_signed) as Hmax
    by (unfold Int32.max_signed; simpl; lia).
  assert (List.length (@nil Z) + 5 < 6)%nat as Hf by (simpl; lia).
  exact (conj Hstep (conj Hvalid (conj Hoff (conj Hmax (conj Hf
           (calls_keep_in_step empty_state [] _ 6 Hstep Hvalid Hoff Hmax Hf)))))).
Defined.

(** ** Whatever returns leaves a list *)

Lemma bind_OutOfFuel {A B} (m : M A) (k : A → M B) s :
  m s = OutOfFuel → (m ≫= k) s = OutOfFuel.
Proof. intros H. unfold mbind, M_bind. by rewrite H. Qed.

(** With less fuel than the chain is long, the loops do not return. *)
Lemma InsertBack_loop_short s fuel p cs :
  seg (heap s) p cs nullptr →
  (fuel < List.length cs)%nat →
  InsertBack_loop fuel p s = OutOfFuel.
Proof.
  revert fuel p. induction cs as [|[l x] cs IH]; intros fuel p Hseg Hf; simpl in *; [lia|].
  destruct fuel as [|fuel]; [done|]. simpl.
  inversion Hseg as [|? ? q ? ? Hl Hq]; subst.
  erewrite bind_Done by by eapply load_next_Done. simpl.
  destruct q as [lq|].
  - apply IH; [done | lia].
  - apply seg_null in Hq as [-> _]. simpl in Hf. lia.
Qed.

Lemma Reverse_loop_short cs : ∀ s fuel previous current,
  seg (heap s) current cs nullptr →
  (fuel ≤ List.length cs)%nat →
  Reverse_loop fuel previous current s = OutOfFuel.
Proof.
  induction cs as [|[l x] cs IH]; intros s fuel previous current Hseg Hf;
    (destruct fuel as [|fuel]; [done|]); simpl in *; [lia|].
  pose proof (seg_NoDup _ _ _ Hseg) as [Hl_cs _]%NoDup_cons.
  inversion Hseg as [|? ? q ? ? Hl Hq]; subst.
  do 2 step. apply IH; [|lia]. norm_state. by apply seg_insert.
Qed.

Lemma Print_loop_short cs : ∀ s fuel p,
  seg (heap s) p cs nullptr →
  (fuel ≤ List.length cs)%nat →
  Print_loop fuel p s = OutOfFuel.
Proof.
  induction cs as [|[l x] cs IH]; intros s fuel p Hseg Hf;
    (destruct fuel as [|fuel]; [done|]); simpl in *; [lia|].
  inversion Hseg as [|? ? q ? ? Hl Hq]; subst.
  unfold put_char. do 4 step. apply IH; [done | lia].
Qed.

Lemma StartRecursionPrint_short cs : ∀ s fuel p,
  seg (heap s) p cs nullptr →
  (fuel ≤ List.length cs)%nat →
  StartRecursionPrint fuel p s = OutOfFuel.
Proof.
  induction cs as [|[l x] cs IH]; intros s fuel p Hseg Hf;
    (destruct fuel as [|fuel]; [done|]); simpl in *; [lia|].
  inversion Hseg as [|? ? q ? ? Hl Hq]; subst.
  do 4 step. apply IH; [done | lia].
Qed.

Lemma InsertBack_short s fuel v cs :
  seg (heap s) (head (this s)) cs nullptr →
  (fuel < List.length cs)%nat →
  InsertBack fuel v s = OutOfFuel.
Proof.
  intros Hseg Hf. unfold InsertBack. do 4 step. rewrite !insert_insert_eq.
  destruct (head (this s)) as [lh|] eqn:Hhd.
  - apply bind_OutOfFuel, bind_OutOfFuel.
    eapply InsertBack_loop_short; [|done]. norm_state.
    apply seg_insert; [by eapply seg_fresh | done].
  - apply seg_null in Hseg as [-> _]. simpl in Hf. lia.
Qed.

(** [InsertAt] and [Delete] with any index at all: where they return, the
    chain is still one that ends in [nullptr]. *)
Lemma InsertAt_returns_list s xs v i s' :
  is_list s xs → InsertAt v i s = Done (tt, s') → ∃ xs', is_list s' xs'.
Proof.
  intros (cs & Hseg & <-) Hrun. destruct (decide (i = 1)) as [->|Hne].
  - rewrite InsertAt_front_exec in Hrun. injection Hrun as <-.
    eexists. eexists. split; [by apply seg_push | done].
  - destruct (decide (List.length cs ≤ Z.to_nat (Int32.wrap (i - 2)))%nat) as [Hle|Hgt].
    { by rewrite (InsertAt_overrun s v i cs) in Hrun. }
    destruct (split_at cs (Z.to_nat (Int32.wrap (i - 2))))
      as (cs1 & [l0 x0] & cs2 & -> & Hcount); [lia|].
    destruct (InsertAt_after s v i cs1 l0 x0 cs2) as (s'' & Hrun' & Hseg' & _); [done..|].
    rewrite Hrun' in Hrun. injection Hrun as <-. eexists. by eexists.
Qed.

Lemma Delete_returns_list s xs i s' :
  is_list s xs → Delete i s = Done (tt, s') → ∃ xs', is_list s' xs'.
Proof.
  intros (cs & Hseg & <-) Hrun. destruct (decide (i = 1)) as [->|Hne].
  - destruct cs as [|[l0 x0] cs].
    { rewrite Delete_front_empty in Hrun; [done | by inversion Hseg]. }
    pose proof (seg_NoDup _ _ _ Hseg) as [Hl0 _]%NoDup_cons.
    inversion Hseg as [|? ? q ? ? Hl Hq Hhd]; subst.
    erewrite Delete_front_exec in Hrun by done. injection Hrun as <-.
    eexists. exists cs. split; [|done]. norm_state. by apply seg_delete.
  - destruct (decide (List.length cs ≤ S (Z.to_nat (Int32.wrap (i - 2))))%nat) as [Hle|Hgt].
    { by rewrite (Delete_overrun s i cs) in Hrun. }
    destruct (split_at cs (Z.to_nat (Int32.wrap (i - 2))))
      as (cs1 & [l0 x0] & cs2 & -> & Hcount); [lia|].
    rewrite length_app in Hgt. simpl in Hgt.
    destruct cs2 as [|[l1 x1] cs2]; [simpl in Hgt; lia|].
    destruct (Delete_after s i cs1 l0 x0 l1 x1 cs2) as (s'' & Hrun' & Hseg' & _); [done..|].
    rewrite Hrun' in Hrun. injection Hrun as <-. eexists. by eexists.
Qed.

Lemma run_call_returns_list s xs c fuel s' :
  is_list s xs → run_call fuel c s = Done (tt, s') → ∃ xs', is_list s' xs'.
Proof.
  intros Hlist Hrun. destruct c as [v|v|v i|i| | | |]; simpl in Hrun.
  - pose proof Hlist as (cs & Hseg & <-).
    rewrite InsertFront_exec in Hrun. injection Hrun as <-.
    eexists. eexists. split; [by apply seg_push | done].
  - destruct (decide (List.length xs ≤ fuel)%nat) as [Hf|Hf].
    + destruct (InsertBack_list s xs v fuel) as (s'' & Hrun' & Hlist' & _); [done..|].
      rewrite Hrun' in Hrun. injection Hrun as <-. by eexists.
    + destruct Hlist as (cs & Hseg & <-). rewrite length_fmap in Hf.
      rewrite (InsertBack_short s fuel v cs) in Hrun; [done | done | lia].
  - by eapply InsertAt_returns_list.
  - by eapply Delete_returns_list.
  - pose proof Hlist as (cs & Hseg & <-).
    destruct (decide (List.length cs < fuel)%nat) as [Hf|Hf].
    + destruct (Reverse_list s cs fuel) as (s'' & Hrun' & Hseg' & _); [done..|].
      rewrite Hrun' in Hrun. injection Hrun as <-. eexists. by eexists.
    + unfold Reverse in Hrun. erewrite bind_Done in Hrun by reflexivity.
      erewrite bind_OutOfFuel in Hrun; [done|].
      apply (Reverse_loop_short cs); [done | lia].
  - pose proof Hlist as (cs & Hseg & <-).
    destruct (decide (List.length cs < fuel)%nat) as [Hf|Hf].
    + unfold Print in Hrun. erewrite bind_Done in Hrun by reflexivity.
      rewrite (Print_loop_seg s fuel _ cs) in Hrun by done.
      injection Hrun as <-. exists cs.*2. by exists cs.
    + unfold Print in Hrun. erewrite bind_Done in Hrun by reflexivity.
      rewrite (Print_loop_short cs) in Hrun; [done | done | lia].
  - pose proof Hlist as (cs & Hseg & <-).
    destruct (decide (List.length cs < fuel)%nat) as [Hf|Hf].
    + unfold PrintRecursion in Hrun. erewrite bind_Done in Hrun by reflexivity.
      rewrite (StartRecursionPrint_seg s fuel _ cs) in Hrun by done.
      injection Hrun as <-. exists cs.*2. by exists cs.
    + unfold PrintRecursion in Hrun. erewrite bind_Done in Hrun by reflexivity.
      rewrite (StartRecursionPrint_short cs) in Hrun; [done | done | lia].
  - injection Hrun as <-. by exists xs.
Qed.

(** X8: the chain stays a list.  From a list (a newly constructed one, for
    one), after any sequence of calls with any arguments that all return,
    the chain from [head] again ends in [nullptr] after finitely many nodes,
    so that a traversal returns: no call that returns leaves a cycle or a
    pointer to a freed node in the chain. *)
Theorem returning_calls_keep_list s xs calls fuel s' :
  is_list s xs →
  run_calls fuel calls s = Done (tt, s') →
  ∃ xs', is_list s' xs' ∧ traversal s' xs'.
Proof.
  revert s xs. induction calls as [|c calls IH]; intros s xs Hlist Hrun; simpl in Hrun.
  - injection Hrun as <-. exists xs. split; [done | by apply is_list_traversal].
  - apply bind_Done_inv in Hrun as ([] & s1 & Hrun1 & Hrun).
    destruct (run_call_returns_list s xs c fuel s1) as [xs1 Hlist1]; [done..|].
    by apply (IH s1 xs1).
Qed.

Lemma returning_calls_keep_list_witness :
  is_list list_123 [1; 2; 3] ∧
  ∃ s', run_calls 5 [CallInsertAt 9 0; CallDelete (-5); CallReverse;
                     CallInsertBack 4; CallDelete 1] list_123 = Done (tt, s') ∧
        ∃ xs', is_list s' xs' ∧ traversal s' xs'.
Proof.
  assert (∃ s', run_calls 5 [CallInsertAt 9 0; CallDelete (-5); CallReverse;
                             CallInsertBack 4; CallDelete 1] list_123 = Done (tt, s'))
    as [s' Hrun] by (eexists; vm_compute; reflexivity).
  split; [exact list_123_is_list|]. exists s'. split; [exact Hrun|].
  exact (returning_calls_keep_list list_123 [1; 2; 3] _ 5 s' list_123_is_list Hrun).
Defined.

(** ** The heap outside the list *)

(** The rest of the heap is the same after as before when every cell is
    accounted for: a node new in the chain was free, a node gone from the
    chain is freed, and a cell in neither is as it was. *)
Lemma rest_same s cs s' cs' l :
  (l ∈ cs'.*1 → l ∉ cs.*1 → heap s !! l = None) →
  (l ∈ cs.*1 → l ∉ cs'.*1 → heap s' !! l = None) →
  (l ∉ cs.*1 → l ∉ cs'.*1 → heap s' !! l = heap s !! l) →
  rest s' cs' l = rest s cs l.
Proof.
  intros Hnew Hgone Hsame. unfold rest.
  destruct (decide (l ∈ cs'.*1)), (decide (l ∈ cs.*1)); auto.
  symmetry. auto.
Qed.

Lemma InsertFront_cells s cs v :
  seg (heap s) (head (this s)) cs nullptr →
  ∃ s', InsertFront v s = Done (tt, s') ∧
        seg (heap s') (head (this s')) ((fresh (dom (heap s)), v) :: cs) nullptr ∧
        length (this s') = Int32.wrap (length (this s) + 1) ∧
        cout s' = cout s ∧
        ∀ l, rest s' ((fresh (dom (heap s)), v) :: cs) l = rest s cs l.
Proof.
  intros Hseg. pose proof (seg_fresh _ _ _ _ Hseg) as Hfresh.
  pose proof (fresh_lookup (heap s)) as Hfree.
  eexists. split; [apply InsertFront_exec|]. split; [by apply seg_push|].
  split; [done|]. split; [done|].
  intros l. apply rest_same; norm_state.
  - intros [->|Hin]%elem_of_cons Hout; done.
  - intros Hin Hout. destruct Hout. by right.
  - intros Hout [Hne Hout']%not_elem_of_cons. by rewrite lookup_insert_ne.
Qed.

Lemma InsertAt_cells s cs v i s' :
  seg (heap s) (head (this s)) cs nullptr →
  InsertAt v i s = Done (tt, s') →
  ∃ cs', seg (heap s') (head (this s')) cs' nullptr ∧
         ∀ l, rest s' cs' l = rest s cs l.
Proof.
  intros Hseg Hrun. pose proof (seg_fresh _ _ _ _ Hseg) as Hfresh.
  pose proof (fresh_lookup (heap s)) as Hfree.
  destruct (decide (i = 1)) as [->|Hne].
  - rewrite InsertAt_front_exec in Hrun. injection Hrun as <-.
    exists ((fresh (dom (heap s)), v) :: cs). split; [by apply seg_push|].
    intros l. apply rest_same; norm_state.
    + intros [->|Hin]%elem_of_cons Hout; done.
    + intros Hin Hout. destruct Hout. by right.
    + intros Hout [Hne Hout']%not_elem_of_cons. by rewrite lookup_insert_ne.
  - destruct (decide (List.length cs ≤ Z.to_nat (Int32.wrap (i - 2)))%nat) as [Hle|Hgt].
    { by rewrite (InsertAt_overrun s v i cs) in Hrun. }
    destruct (split_at cs (Z.to_nat (Int32.wrap (i - 2))))
      as (cs1 & [l0 x0] & cs2 & -> & Hcount); [lia|].
    destruct (InsertAt_after s v i cs1 l0 x0 cs2) as (s'' & Hrun' & Hseg' & _); [done..|].
    rewrite Hrun' in Hrun. injection Hrun as <-.
    exists (cs1 ++ (l0, x0) :: (fresh (dom (heap s)), v) :: cs2). split; [done|].
    apply seg_app in Hseg as (q & Hseg1 & Hseg2).
    inversion Hseg2 as [|? ? q2 ? ? Hl0 Hq2]; subst.
    pose proof (InsertAt_exec s v i cs1 l0 _ Hne Hseg1 Hcount Hl0) as Hexec.
    rewrite Hrun' in Hexec. injection Hexec as ->.
    rewrite fmap_app, fmap_cons in Hfresh. simpl in Hfresh.
    intros l. apply rest_same; norm_state;
      rewrite !fmap_app, !fmap_cons, !elem_of_app, !elem_of_cons; simpl.
    + intros [?|[?|[->|?]]] Hout; [tauto | tauto | done | tauto].
    + tauto.
    + intros Hout Hout'.
      by rewrite !lookup_insert_ne by (intros <-; apply Hout'; auto).
Qed.

Lemma Delete_cells s cs i s' :
  seg (heap s) (head (this s)) cs nullptr →
  Delete i s = Done (tt, s') →
  ∃ cs', seg (heap s') (head (this s')) cs' nullptr ∧
         ∀ l, rest s' cs' l = rest s cs l.
Proof.
  intros Hseg Hrun. pose proof (seg_NoDup _ _ _ Hseg) as Hnd.
  destruct (decide (i = 1)) as [->|Hne].
  - destruct cs as [|[l0 x0] cs].
    { rewrite Delete_front_empty in Hrun; [done | by inversion Hseg]. }
    apply NoDup_cons in Hnd as [Hl0 _].
    inversion Hseg as [|? ? q ? ? Hl Hq Hhd]; subst.
    erewrite Delete_front_exec in Hrun by done. injection Hrun as <-.
    exists cs. split; [norm_state; by apply seg_delete|].
    intros l. apply rest_same; norm_state; rewrite !fmap_cons, !elem_of_cons; simpl.
    + tauto.
    + intros [->|?] Hout; [apply lookup_delete_eq | done].
    + intros Hout Hout'. by rewrite lookup_delete_ne by (intros <-; apply Hout; auto).
  - destruct (decide (List.length cs ≤ S (Z.to_nat (Int32.wrap (i - 2))))%nat) as [Hle|Hgt].
    { by rewrite (Delete_overrun s i cs) in Hrun. }
    destruct (split_at cs (Z.to_nat (Int32.wrap (i - 2))))
      as (cs1 & [l0 x0] & cs2 & -> & Hcount); [lia|].
    rewrite length_app in Hgt. simpl in Hgt.
    destruct cs2 as [|[l1 x1] cs2]; [simpl in Hgt; lia|].
    destruct (Delete_after s i cs1 l0 x0 l1 x1 cs2) as (s'' & Hrun' & Hseg' & _); [done..|].
    rewrite Hrun' in Hrun. injection Hrun as <-.
    exists (cs1 ++ (l0, x0) :: cs2). split; [done|].
    rewrite fmap_app, !fmap_cons in Hnd. simpl in Hnd.
    apply NoDup_app in Hnd as (_ & Hcs1 & [Hl0 [Hl1 _]%NoDup_cons]%NoDup_cons).
    apply not_elem_of_cons in Hl0 as [Hne01 Hl0].
    apply seg_app in Hseg as (q & Hseg1 & Hseg2).
    inversion Hseg2 as [|? ? q1 ? ? Hl0' Hq1]; subst.
    inversion Hq1 as [|? ? q2 ? ? Hl1' Hq2]; subst.
    pose proof (Delete_exec s i cs1 l0 _ l1 _ Hne Hseg1 Hcount Hl0' eq_refl Hl1' Hne01)
      as Hexec.
    rewrite Hrun' in Hexec. injection Hexec as ->.
    intros l. apply rest_same; norm_state;
      rewrite !fmap_app, !fmap_cons, !elem_of_app, !elem_of_cons; simpl.
    + tauto.
    + intros [?|[?|[->|?]]] Hout; [tauto | tauto | apply lookup_delete_eq | tauto].
    + intros Hout Hout'.
      rewrite lookup_delete_ne by (intros <-; apply Hout; auto).
      by rewrite lookup_insert_ne by (intros <-; apply Hout; auto).
Qed.

Lemma InsertBack_cells s cs v fuel :
  seg (heap s) (head (this s)) cs nullptr →
  (List.length cs ≤ fuel)%nat →
  ∃ s', InsertBack fuel v s = Done (tt, s') ∧
        seg (heap s') (head (this s')) (cs ++ [(fresh (dom (heap s)), v)]) nullptr ∧
        length (this s') = Int32.wrap (length (this s) + 1) ∧
        cout s' = cout s ∧
        ∀ l, rest s' (cs ++ [(fresh (dom (heap s)), v)]) l = rest s cs l.
Proof.
  intros Hseg Hf. pose proof (seg_fresh _ _ _ _ Hseg) as Hfresh.
  pose proof (fresh_lookup (heap s)) as Hfree.
  destruct cs as [|[l0 x0] cs _] using rev_ind.
  - pose proof (seg_first _ _ _ _ Hseg) as Hhd. simpl in Hhd.
    eexists. split; [by apply InsertBack_empty_exec|]. norm_state.
    split; [econstructor; [apply lookup_insert_eq | constructor]|].
    split; [done|]. split; [done|].
    intros l. apply rest_same; norm_state; simpl.
    + intros Hin _. by apply list_elem_of_singleton in Hin as ->.
    + by intros ?%elem_of_nil.
    + intros _ Hout. by rewrite lookup_insert_ne by (intros <-; apply Hout; left).
  - rewrite length_app in Hf. simpl in Hf.
    pose proof (seg_NoDup _ _ _ Hseg) as Hnd.
    rewrite fmap_app in Hnd, Hfresh. simpl in Hnd, Hfresh.
    apply NoDup_app in Hnd as (_ & Hl0 & _).
    apply not_elem_of_app in Hfresh as [Hf1 [Hf0 _]%not_elem_of_cons].
    eexists. split; [eapply InsertBack_exec; [done | lia]|]. norm_state.
    split; [|split; [done|split; [done|]]].
    + apply seg_snoc in Hseg as [Hseg Hl].
      apply seg_snoc. split; [|by rewrite lookup_insert_ne, lookup_insert_eq].
      apply seg_snoc. split; [|by rewrite lookup_insert_eq].
      apply seg_insert; [|by apply seg_insert].
      intros Hin. apply (Hl0 l0); [done | by left].
    + intros l. apply rest_same; norm_state;
        rewrite !fmap_app, !elem_of_app; simpl;
        rewrite !list_elem_of_singleton.
      * intros [[?|?]| ->] Hout; [tauto | tauto | done].
      * tauto.
      * intros Hout Hout'.
        by rewrite !lookup_insert_ne by (intros <-; apply Hout'; auto).
Qed.

Lemma Reverse_cells s cs fuel :
  seg (heap s) (head (this s)) cs nullptr →
  (List.length cs < fuel)%nat →
  ∃ s', Reverse fuel s = Done (tt, s') ∧
        seg (heap s') (head (this s')) (reverse cs) nullptr ∧
        length (this s') = length (this s) ∧
        cout s' = cout s ∧
        dom (heap s') = dom (heap s) ∧
        ∀ l, rest s' (reverse cs) l = rest s cs l.
Proof.
  intros Hseg Hf.
  destruct (Reverse_list s cs fuel) as (s' & Hrun & Hseg' & Hlen & Hout & Hframe & Hdata);
    [done..|].
  exists s'. split_and!; [done..| |].
  - apply set_eq. intros l. rewrite !elem_of_dom, <-!(fmap_is_Some data).
    by rewrite Hdata.
  - intros l. apply rest_same; rewrite ?fmap_reverse, ?elem_of_reverse; [tauto..|].
    intros Hout' _. by apply Hframe.
Qed.

Lemma run_call_cells s cs c fuel s' :
  seg (heap s) (head (this s)) cs nullptr →
  run_call fuel c s = Done (tt, s') →
  ∃ cs', seg (heap s') (head (this s')) cs' nullptr ∧
         ∀ l, rest s' cs' l = rest s cs l.
Proof.
  intros Hseg Hrun. destruct c as [v|v|v i|i| | | |]; simpl in Hrun.
  - destruct (InsertFront_cells s cs v) as (s'' & Hrun' & Hseg' & _ & _ & Hrest); [done|].
    rewrite Hrun' in Hrun. injection Hrun as <-. eauto.
  - destruct (decide (List.length cs ≤ fuel)%nat) as [Hf|Hf].
    + destruct (InsertBack_cells s cs v fuel) as (s'' & Hrun' & Hseg' & _ & _ & Hrest);
        [done..|].
      rewrite Hrun' in Hrun. injection Hrun as <-. eauto.
    + rewrite (InsertBack_short s fuel v cs) in Hrun; [done | done | lia].
  - by eapply InsertAt_cells.
  - by eapply Delete_cells.
  - destruct (decide (List.length cs < fuel)%nat) as [Hf|Hf].
    + destruct (Reverse_cells s cs fuel) as (s'' & Hrun' & Hseg' & _ & _ & _ & Hrest);
        [done..|].
      rewrite Hrun' in Hrun. injection Hrun as <-. eauto.
    + unfold Reverse in Hrun. erewrite bind_Done in Hrun by reflexivity.
      erewrite bind_OutOfFuel in Hrun; [done|].
      apply (Reverse_loop_short cs); [done | lia].
  - unfold Print in Hrun. erewrite bind_Done in Hrun by reflexivity.
    destruct (decide (List.length cs < fuel)%nat) as [Hf|Hf].
    + rewrite (Print_loop_seg s fuel _ cs) in Hrun by done.
      injection Hrun as <-. by exists cs.
    + rewrite (Print_loop_short cs) in Hrun; [done | done | lia].
  - unfold PrintRecursion in Hrun. erewrite bind_Done in Hrun by reflexivity.
    destruct (decide (List.length cs < fuel)%nat) as [Hf|Hf].
    + rewrite (StartRecursionPrint_seg s fuel _ cs) in Hrun by done.
      injection Hrun as <-. by exists cs.
    + rewrite (StartRecursionPrint_short cs) in Hrun; [done | done | lia].
  - injection Hrun as <-. by exists cs.
Qed.

(** A heap that holds the nodes of the chain and nothing else. *)
Lemma rest_empty_dom s cs :
  seg (heap s) (head (this s)) cs nullptr →
  (∀ l, rest s cs l = None) ↔ dom (heap s) = list_to_set cs.*1.
Proof.
  intros Hseg. split.
  - intros Hrest. apply set_eq. intros l.
    rewrite elem_of_list_to_set, elem_of_dom. split.
    + intros Hl. destruct (decide (l ∈ cs.*1)) as [|Hout]; [done|].
      specialize (Hrest l). unfold rest in Hrest.
      rewrite decide_False in Hrest by done. rewrite Hrest in Hl. by destruct Hl.
    + by eapply seg_allocated.
  - intros Hdom l. unfold rest. destruct (decide (l ∈ cs.*1)) as [|Hout]; [done|].
    apply not_elem_of_dom. rewrite Hdom. by rewrite elem_of_list_to_set.
Qed.

(** X9: the calls keep to the nodes of the list.  After any sequence of
    calls with any arguments that all return, every cell of the heap that
    is in the chain neither before nor after is as it was, every node that
    has left the chain is freed and every node that has joined it was free:
    the heap outside the chain is unchanged.  In particular, if the heap
    held the nodes of the list and nothing else, it does so again: no node
    is leaked. *)
Theorem returning_calls_keep_rest s cs calls fuel s' :
  seg (heap s) (head (this s)) cs nullptr →
  run_calls fuel calls s = Done (tt, s') →
  ∃ cs', seg (heap s') (head (this s')) cs' nullptr ∧
         (∀ l, rest s' cs' l = rest s cs l) ∧
         (dom (heap s) = list_to_set cs.*1 → dom (heap s') = list_to_set cs'.*1).
Proof.
  intros Hseg Hrun.
  assert (∃ cs', seg (heap s') (head (this s')) cs' nullptr ∧
                 ∀ l, rest s' cs' l = rest s cs l) as (cs' & Hseg' & Hrest).
  { revert s cs Hseg Hrun. induction calls as [|c calls IH]; intros s cs Hseg Hrun;
      simpl in Hrun.
    - injection Hrun as <-. by exists cs.
    - apply bind_Done_inv in Hrun as ([] & s1 & Hrun1 & Hrun).
      destruct (run_call_cells s cs c fuel s1) as (cs1 & Hseg1 & Hrest1); [done..|].
      destruct (IH s1 cs1) as (cs' & Hseg' & Hrest'); [done..|].
      exists cs'. split; [done|]. intros l. by rewrite Hrest', Hrest1. }
  exists cs'. split_and!; [done..|].
  intros Hdom. apply rest_empty_dom; [done|]. intros l. rewrite Hrest.
  by apply rest_empty_dom.
Qed.

Lemma returning_calls_keep_rest_witness :
  seg (heap list_123) (head (this list_123))
      [(1%positive, 1); (2%positive, 2); (3%positive, 3)] nullptr ∧
  dom (heap list_123) = list_to_set [(1%positive, 1); (2%positive, 2); (3%positive, 3)].*1 ∧
  ∃ s', run_calls 5 [CallInsertAt 9 0; CallDelete (-5); CallReverse;
                     CallInsertBack 4; CallDelete 1] list_123 = Done (tt, s') ∧
        ∃ cs', seg (heap s') (head (this s')) cs' nullptr ∧
               (∀ l, rest s' cs' l =
                     rest list_123 [(1%positive, 1); (2%positive, 2); (3%positive, 3)] l) ∧
               dom (heap s') = list_to_set cs'.*1.
Proof.
  assert (seg (heap list_123) (head (this list_123))
            [(1%positive, 1); (2%positive, 2); (3%positive, 3)] nullptr) as Hseg
    by repeat econstructor.
  assert (dom (heap list_123) =
          list_to_set [(1%positive, 1); (2%positive, 2); (3%positive, 3)].*1) as Hdom
    by (by vm_compute).
  split; [exact Hseg|]. split; [exact Hdom|].
  assert (∃ s', run_calls 5 [CallInsertAt 9 0; CallDelete (-5); CallReverse;
                             CallInsertBack 4; CallDelete 1] list_123 = Done (tt, s'))
    as [s' Hrun] by (eexists; vm_compute; reflexivity).
  exists s'. split; [exact Hrun|].
  destruct (returning_calls_keep_rest list_123 _ _ 5 s' Hseg Hrun)
    as (cs' & Hseg' & Hrest & Hdom').
  exists cs'. split; [exact Hseg'|]. split; [exact Hrest | exact (Hdom' Hdom)].
Defined.

(** ** Front and back under reversal *)

(** X10: reversal turns the front into the back.  On every list,
    [InsertFront v] followed by [Reverse] and [Reverse] followed by
    [InsertBack v] return the same state, a list holding the reversed prior
    sequence followed by [v]. *)
Theorem InsertFront_Reverse_InsertBack s xs v fuel :
  is_list s xs →
  (S (List.length xs) < fuel)%nat →
  ∃ s1 s2 s', InsertFront v s = Done (tt, s1) ∧
              Reverse fuel s1 = Done (tt, s') ∧
              Reverse fuel s = Done (tt, s2) ∧
              InsertBack fuel v s2 = Done (tt, s') ∧
              is_list s' (reverse xs ++ [v]).
Proof.
  intros (cs & Hseg & <-) Hf. rewrite length_fmap in Hf.
  destruct (InsertFront_cells s cs v) as (s1 & Hrun1 & Hseg1 & Hlen1 & Hout1 & Hrest1);
    [done|].
  destruct (Reverse_cells s1 _ fuel Hseg1)
    as (sA & HrunA & HsegA & HlenA & HoutA & _ & HrestA); [simpl; lia|].
  destruct (Reverse_cells s cs fuel Hseg)
    as (s2 & Hrun2 & Hseg2 & Hlen2 & Hout2 & Hdom2 & Hrest2); [lia|].
  destruct (InsertBack_cells s2 _ v fuel Hseg2)
    as (sB & HrunB & HsegB & HlenB & HoutB & HrestB); [rewrite length_reverse; lia|].
  rewrite Hdom2 in HsegB, HrestB. rewrite reverse_cons in HsegA, HrestA.
  assert (sB = sA) as ->.
  { assert (heap sB = heap sA) as Hheap.
    { apply map_eq. intros l.
      destruct (decide (l ∈ (reverse cs ++ [(fresh (dom (heap s)), v)]).*1)) as [Hin|Hnin].
      - by eapply seg_cells_agree.
      - specialize (HrestA l). specialize (HrestB l).
        unfold rest at 1 in HrestA. unfold rest at 1 in HrestB.
        rewrite decide_False in HrestA, HrestB by done.
        rewrite HrestA, HrestB. by rewrite Hrest1, Hrest2. }
    assert (head (this sB) = head (this sA)) as Hhead.
    { apply seg_first in HsegA, HsegB. congruence. }
    destruct sA as [hA [nA pA] oA], sB as [hB [nB pB] oB]. simpl in *. congruence. }
  exists s1, s2, sA. split_and!; [done..|].
  exists (reverse cs ++ [(fresh (dom (heap s)), v)]). split; [done|].
  by rewrite fmap_app, fmap_reverse.
Qed.

Lemma InsertFront_Reverse_InsertBack_witness :
  is_list list_123 [1; 2; 3] ∧
  (S (List.length [1; 2; 3]) < 5)%nat ∧
  ∃ s1 s2 s', InsertFront 7 list_123 = Done (tt, s1) ∧
              Reverse 5 s1 = Done (tt, s') ∧
              Reverse 5 list_123 = Done (tt, s2) ∧
              InsertBack 5 7 s2 = Done (tt, s') ∧
              is_list s' [3; 2; 1; 7].
Proof.
  assert (S (List.length [1; 2; 3]) < 5)%nat as Hf by (simpl; lia).
  exact (conj list_123_is_list (conj Hf
           (InsertFront_Reverse_InsertBack list_123 [1; 2; 3] 7 5 list_123_is_list Hf))).
Defined.

(** ** A newly constructed list *)

(** X11: whatever the heap and the output so far, a newly constructed list
    is empty: [GetLength] returns 0; [Print], [PrintRecursion] and
    [Reverse] return without changing anything; [Delete] with any index
    and [InsertAt] with any index other than 1 dereference [nullptr]. *)
Theorem LinkedList_new_spec h o :
  GetLength (LinkedList_new h o) = Done (0, LinkedList_new h o) ∧
  is_list (LinkedList_new h o) [] ∧
  (∀ fuel, Print (S fuel) (LinkedList_new h o) = Done (tt, LinkedList_new h o) ∧
           PrintRecursion (S fuel) (LinkedList_new h o) = Done (tt, LinkedList_new h o) ∧
           Reverse (S fuel) (LinkedList_new h o) = Done (tt, LinkedList_new h o)) ∧
  (∀ i, Delete i (LinkedList_new h o) = Undefined) ∧
  (∀ v i, i ≠ 1 → InsertAt v i (LinkedList_new h o) = Undefined).
Proof.
  assert (seg (heap (LinkedList_new h o)) (head (this (LinkedList_new h o))) [] nullptr)
    as Hseg by constructor.
  split_and!; [done | by apply is_list_nil | done | |].
  - intros i. destruct (decide (i = 1)) as [->|Hne].
    + by apply Delete_front_empty.
    + eapply Delete_overrun; [done | exact Hseg | simpl; lia].
  - intros v i Hne. eapply InsertAt_overrun; [done | exact Hseg | simpl; lia].
Qed.
